(** * BPS patch engine (BaseFiles/bps_patcher.py): shallow embedding

    The Python module has two pure functions, [read_vlv] and
    [apply_bps_patch].  Python integers are unbounded, so every integer
    is a [Z]; [bytes] and [bytearray] values are lists of [byte]; an
    uncaught exception is the [Raise] outcome of the [res] monad.  The
    one place where the interpreter and the machine matter, the
    allocation of the target buffer, takes their limits as a [Host]. *)

From Stdlib Require Import ZArith Lia.
From Stdlib Require Import Strings.Byte.
From stdpp Require Import base option list.

Local Open Scope Z_scope.

(** ** Exceptions and the error monad *)

Inductive exn : Type :=
| PatchTooSmall   (* ValueError("Patch file too small") *)
| InvalidPatch    (* ValueError("Invalid BPS patch file") *)
| MaxIterations   (* ValueError("Patch processing exceeded maximum iterations ...") *)
| IndexError      (* built-in: index out of range *)
| OverflowError   (* built-in: cannot fit 'int' into an index-sized integer *)
| NegativeCount   (* ValueError("negative count") *)
| MemoryError.    (* built-in: the allocation failed *)

Inductive res (A : Type) : Type :=
| Ok (a : A)
| Raise (e : exn).
Arguments Ok {A} a.
Arguments Raise {A} e.

Definition bind {A B : Type} (m : res A) (k : A -> res B) : res B :=
  match m with
  | Ok a => k a
  | Raise e => Raise e
  end.

Declare Scope res_scope.
Delimit Scope res_scope with res.
Notation "'do' x <- m ; k" := (bind m (fun x => k))
  (at level 10, x pattern, m at level 100, k at level 200) : res_scope.
Local Open Scope res_scope.

(** The error names of the design document, in terms of what the code
    raises: both header checks are [BadMagic], the loop guard is
    [MalformedPatch].  The code has no error of its own for a truncated
    variable-length value. *)
Definition BadMagic (e : exn) : Prop := e = PatchTooSmall \/ e = InvalidPatch.

(** ** Byte sequences *)

#[global] Instance byte_eq_dec : EqDecision byte := Byte.byte_eq_dec.

Definition byte_val (b : byte) : Z := Z.of_N (Byte.to_N b).

(** [len(data)] *)
Definition len (data : list byte) : Z := Z.of_nat (length data).

(** [data[i]] on [bytes] or [bytearray]: a negative index counts from
    the end, an index outside [-len, len) raises IndexError. *)
Definition py_getitem (data : list byte) (i : Z) : res byte :=
  let j := if i <? 0 then i + len data else i in
  if (j <? 0) || (len data <=? j) then Raise IndexError
  else match data !! Z.to_nat j with
       | Some b => Ok b
       | None => Raise IndexError
       end.

(** [data[i] = b] on a [bytearray], same index rule. *)
Definition py_setitem (data : list byte) (i : Z) (b : byte) : res (list byte) :=
  let j := if i <? 0 then i + len data else i in
  if (j <? 0) || (len data <=? j) then Raise IndexError
  else Ok (<[Z.to_nat j := b]> data).

(** [b'BPS1'] *)
Definition magic : list byte := [x42; x50; x53; x31]%byte.

(** ** read_vlv *)

(** The [while offset < len(data)] loop.  [fuel] is the loop variant
    [len(data) - offset]: the offset grows by one per iteration, so when
    the fuel is spent the loop condition is false (see
    [read_vlv_loop_unfold] and [read_vlv_loop_fuel]). *)
Fixpoint read_vlv_loop (fuel : nat) (data : list byte)
    (offset result shift : Z) : res (Z * Z) :=
  match fuel with
  | O => Ok (result, offset)
  | S fuel' =>
      if offset <? len data then
        do b <- py_getitem data offset;
        let byte := byte_val b in
        let offset := offset + 1 in
        let result := result + Z.land byte 0x7F * shift in
        if negb (Z.land byte 0x80 =? 0) then Ok (result, offset)
        else read_vlv_loop fuel' data offset result (Z.shiftl shift 7)
      else Ok (result, offset)
  end.

Definition read_vlv (data : list byte) (offset : Z) : res (Z * Z) :=
  read_vlv_loop (Z.to_nat (len data - offset)) data offset 0 1.

(** ** apply_bps_patch *)

(** The signed relative offset of SourceCopy and TargetCopy; the source
    has these four lines once in each of the two branches. *)
Definition decode_relative (copy_offset : Z) : Z :=
  if negb (Z.land copy_offset 1 =? 0)
  then - (Z.shiftr copy_offset 1 + 1)
  else Z.shiftr copy_offset 1.

(** The local variables of [apply_bps_patch] that live across loop
    iterations. *)
Record state : Type := mkState {
  offset : Z;
  source_read_offset : Z;
  target_write_offset : Z;
  target : list byte;
  iteration_count : Z
}.

Definition set_offset (st : state) (o : Z) : state :=
  mkState o (source_read_offset st) (target_write_offset st) (target st)
          (iteration_count st).

(** One pass through the body of the SourceRead [for] loop. *)
Definition source_read_byte (source_rom : list byte) (st : state) : res state :=
  let sro := source_read_offset st in
  let two := target_write_offset st in
  do tgt <-
    (if (sro <? len source_rom) && (two <? len (target st)) then
       do b <- py_getitem source_rom sro; py_setitem (target st) two b
     else if two <? len (target st) then py_setitem (target st) two x00
     else Ok (target st));
  Ok (mkState (offset st) (sro + 1) (two + 1) tgt (iteration_count st)).

(** One pass through the body of the TargetRead [for] loop. *)
Definition target_read_byte (patch_data : list byte) (st : state) : res state :=
  let off := offset st in
  let two := target_write_offset st in
  do tgt <-
    (if (off <? len patch_data) && (two <? len (target st)) then
       do b <- py_getitem patch_data off; py_setitem (target st) two b
     else if two <? len (target st) then py_setitem (target st) two x00
     else Ok (target st));
  Ok (mkState (off + 1) (source_read_offset st) (two + 1) tgt (iteration_count st)).

(** One pass through the body of the SourceCopy [for] loop. *)
Definition source_copy_byte (source_rom : list byte) (st : state) : res state :=
  let sro := source_read_offset st in
  let two := target_write_offset st in
  do tgt <-
    (if (0 <=? sro) && (sro <? len source_rom) && (two <? len (target st)) then
       do b <- py_getitem source_rom sro; py_setitem (target st) two b
     else if two <? len (target st) then py_setitem (target st) two x00
     else Ok (target st));
  Ok (mkState (offset st) (sro + 1) (two + 1) tgt (iteration_count st)).

(** One pass through the body of the TargetCopy [for] loop; [copy_from]
    is local to the branch, so it travels next to the state. *)
Definition target_copy_byte (cs : Z * state) : res (Z * state) :=
  let '(copy_from, st) := cs in
  let two := target_write_offset st in
  do tgt <-
    (if (0 <=? copy_from) && (copy_from <? two) && (two <? len (target st)) then
       do b <- py_getitem (target st) copy_from; py_setitem (target st) two b
     else if two <? len (target st) then py_setitem (target st) two x00
     else Ok (target st));
  Ok (copy_from + 1,
      mkState (offset st) (source_read_offset st) (two + 1) tgt (iteration_count st)).

(** [for i in range(n): body] *)
Fixpoint for_range {S : Type} (n : nat) (body : S -> res S) (s : S) : res S :=
  match n with
  | O => Ok s
  | S n' => do s' <- body s; for_range n' body s'
  end.

(** The body of the [while] loop after the iteration guard: decode one
    action and run it. *)
Definition loop_body (source_rom patch_data : list byte) (st : state) : res state :=
  do action_data <- read_vlv patch_data (offset st);
  let st := set_offset st (snd action_data) in
  let action_raw := fst action_data in
  let action := Z.land action_raw 3 in
  let length := Z.shiftr action_raw 2 + 1 in
  if action =? 0 then
    for_range (Z.to_nat length) (source_read_byte source_rom) st
  else if action =? 1 then
    for_range (Z.to_nat length) (target_read_byte patch_data) st
  else if action =? 2 then
    do copy_data <- read_vlv patch_data (offset st);
    let relative_offset := decode_relative (fst copy_data) in
    let st := mkState (snd copy_data) (source_read_offset st + relative_offset)
                      (target_write_offset st) (target st) (iteration_count st) in
    for_range (Z.to_nat length) (source_copy_byte source_rom) st
  else if action =? 3 then
    do copy_data <- read_vlv patch_data (offset st);
    let relative_offset := decode_relative (fst copy_data) in
    let st := set_offset st (snd copy_data) in
    let copy_from := target_write_offset st + relative_offset in
    do cs <- for_range (Z.to_nat length) target_copy_byte (copy_from, st);
    Ok (snd cs)
  else Ok st.

(** The state at the top of an iteration once [iteration_count += 1]
    has run. *)
Definition counted (st : state) : state :=
  mkState (offset st) (source_read_offset st) (target_write_offset st)
          (target st) (iteration_count st + 1).

(** The [while offset < len(patch_data) - 12] loop.  [None] means the
    fuel ran out while the loop condition still held; that the loop
    always stops is a theorem below, not part of the definition. *)
Fixpoint while_loop (fuel : nat) (source_rom patch_data : list byte)
    (max_iterations : Z) (st : state) : option (res state) :=
  if offset st <? len patch_data - 12 then
    match fuel with
    | O => None
    | S fuel' =>
        let st := counted st in
        if max_iterations <? iteration_count st
        then Some (Raise MaxIterations)
        else match loop_body source_rom patch_data st with
             | Raise e => Some (Raise e)
             | Ok st' => while_loop fuel' source_rom patch_data max_iterations st'
             end
    end
  else Some (Ok st).

(** The limits of the interpreter and of the machine it runs on, which
    [bytearray(n)] depends on: [sys.maxsize], and the largest number of
    bytes the machine gives to one buffer. *)
Record Host : Type := mkHost {
  sys_maxsize : Z;
  memory : Z
}.

(** [bytearray(n)] for an integer [n]: [n] zero bytes.  A count that
    does not fit an index raises OverflowError, a negative one
    ValueError, and one the machine cannot satisfy MemoryError. *)
Definition bytearray (host : Host) (n : Z) : res (list byte) :=
  if (sys_maxsize host <? n) || (n <? - sys_maxsize host - 1)
  then Raise OverflowError
  else if n <? 0 then Raise NegativeCount
  else if memory host <? n then Raise MemoryError
  else Ok (replicate (Z.to_nat n) x00).

(** What the container header gives: the three sizes and the state the
    interpreter starts from (lines 27-43 of the source). *)
Record header : Type := mkHeader {
  source_size : Z;
  target_size : Z;
  metadata_size : Z;
  initial : state
}.

Definition read_header (host : Host) (patch_data : list byte) : res header :=
  do source_size <- read_vlv patch_data 4;
  do target_size <- read_vlv patch_data (snd source_size);
  do metadata_size <- read_vlv patch_data (snd target_size);
  let offset := snd metadata_size in
  let offset := offset + fst metadata_size in
  do target <- bytearray host (fst target_size);
  Ok (mkHeader (fst source_size) (fst target_size) (fst metadata_size)
               (mkState offset 0 0 target 0)).

(** [apply_bps_patch] up to the end of the [while] loop: the state the
    loop stops in. *)
Definition run_patch (host : Host) (fuel : nat)
    (source_rom patch_data : list byte) : option (res state) :=
  if len patch_data <? 19 then Some (Raise PatchTooSmall)
  else if negb (bool_decide (take 4 patch_data = magic))
  then Some (Raise InvalidPatch)
  else match read_header host patch_data with
       | Raise e => Some (Raise e)
       | Ok h =>
           let max_iterations := len patch_data * 2 in
           while_loop fuel source_rom patch_data max_iterations (initial h)
       end.

(** [apply_bps_patch(source_rom, patch_data)]: [return bytes(target)], a
    copy of the size the machine has already given at line 37. *)
Definition apply_bps_patch_fuel (host : Host) (fuel : nat)
    (source_rom patch_data : list byte) : option (res (list byte)) :=
  match run_patch host fuel source_rom patch_data with
  | None => None
  | Some (Raise e) => Some (Raise e)
  | Some (Ok st) => Some (Ok (target st))
  end.

(** The call returns [r] (a value or an exception). *)
Definition returns (host : Host) (source_rom patch_data : list byte)
    (r : res (list byte)) : Prop :=
  exists fuel, apply_bps_patch_fuel host fuel source_rom patch_data = Some r.

(** ** Encoders of the format, for the round-trip properties

    The repository only applies patches and has no encoder.  The two
    encoders below are the inverse directions that the design document
    describes in words; they exist so that the decoders of the source
    can be run on their output. *)

Definition byte_of_Z (z : Z) : byte :=
  match Byte.of_N (Z.to_N z) with
  | Some b => b
  | None => x00
  end.

(** Modelled from the spec: the canonical base-128 encoding of a
    non-negative integer (no encoder exists in the repository): low 7
    bits per byte, least-significant group first, top bit set on the
    final byte only.  [fuel] bounds the number of continuation bytes. *)
Fixpoint vlv_encode_fuel (fuel : nat) (n : Z) : list byte :=
  match fuel with
  | O => [byte_of_Z (Z.lor 0x80 (Z.land n 0x7F))]
  | S fuel' =>
      if n <? 128 then [byte_of_Z (Z.lor 0x80 (Z.land n 0x7F))]
      else byte_of_Z (Z.land n 0x7F) :: vlv_encode_fuel fuel' (Z.shiftr n 7)
  end.

(** Modelled from the spec: the encoding of [n].  The encoder stops at
    the first group that is all that is left (below 128); [log2 n] is
    more fuel than it needs. *)
Definition vlv_encode (n : Z) : list byte :=
  vlv_encode_fuel (Z.to_nat (Z.log2 n)) n.

(** Modelled from the spec: signed offset to magnitude (no encoder
    exists in the repository): the sign in the lowest bit, and the
    distance above it, one less than the absolute value when negative
    (so that -1 is distance 0 with the sign bit set). *)
Definition encode_relative (k : Z) : Z :=
  if k <? 0 then 2 * (- k - 1) + 1 else 2 * k.

(** ** Auxiliary predicates used by the statements *)

(** The bytes at positions [lo <= j < hi] all have the top bit clear. *)
Definition no_stop (data : list byte) (lo hi : Z) : Prop :=
  forall j b, lo <= j < hi -> data !! Z.to_nat j = Some b ->
              Z.land (byte_val b) 0x80 = 0.

(** [st'] is [st] with the patch, source and target cursors advanced by
    the given amounts, a target of the same length and the same
    iteration count. *)
Definition advanced (st st' : state) (d_off d_src d_tgt : Z) : Prop :=
  offset st' = offset st + d_off /\
  source_read_offset st' = source_read_offset st + d_src /\
  target_write_offset st' = target_write_offset st + d_tgt /\
  len (target st') = len (target st) /\
  iteration_count st' = iteration_count st.

(** An outcome that is a value or an IndexError. *)
Definition index_error_only {A : Type} (r : res A) : Prop :=
  forall e, r = Raise e -> e = IndexError.

(** [interprets source_rom patch_data st lengths st']: from [st] the
    [while] loop runs the actions whose decoded lengths are [lengths],
    none of them raising, and leaves the loop in [st']. *)
Inductive interprets (source_rom patch_data : list byte)
    : state -> list Z -> state -> Prop :=
| interprets_done st :
    len patch_data - 12 <= offset st ->
    interprets source_rom patch_data st [] st
| interprets_action st action_raw o1 st1 lengths st' :
    offset st < len patch_data - 12 ->
    read_vlv patch_data (offset st) = Ok (action_raw, o1) ->
    loop_body source_rom patch_data (counted st) = Ok st1 ->
    interprets source_rom patch_data st1 lengths st' ->
    interprets source_rom patch_data st
               ((Z.shiftr action_raw 2 + 1) :: lengths) st'.

(** [sum(lengths)] *)
Definition total (lengths : list Z) : Z := foldr Z.add 0 lengths.

(** Twelve bytes standing for the three checksums, which are not read. *)
Definition trailer : list byte := replicate 12 x00.

(** ** Reference functions

    These do not come from the source: they say in list terms what the
    loops of the source compute, and the theorems compare the source's
    functions with them. *)

(** The bytes of one variable-length value at the head of [l]: up to
    and including the first byte with the top bit set, or all of [l]
    when there is none. *)
Fixpoint vlv_span (l : list byte) : list byte :=
  match l with
  | [] => []
  | b :: l' => if Z.land (byte_val b) 0x80 =? 0 then b :: vlv_span l' else [b]
  end.

(** The low seven bits of each byte as base-128 digits, least
    significant first. *)
Fixpoint vlv_value (l : list byte) : Z :=
  match l with
  | [] => 0
  | b :: l' => Z.land (byte_val b) 0x7F + 128 * vlv_value l'
  end.

(** A zero-filled read: [data[i]] when [0 <= i < len(data)], else 0. *)
Definition byte_at (data : list byte) (i : Z) : byte :=
  if (0 <=? i) && (i <? len data)
  then default x00 (data !! Z.to_nat i)
  else x00.

(** [n] zero-filled reads from position [i] on. *)
Fixpoint bytes_from (data : list byte) (i : Z) (n : nat) : list byte :=
  match n with
  | O => []
  | S n' => byte_at data i :: bytes_from data (i + 1) n'
  end.

(** [tgt] after storing [vs] at positions [pos], [pos + 1], ...;
    positions past the end of [tgt] are dropped. *)
Fixpoint write_from (tgt : list byte) (pos : nat) (vs : list byte) : list byte :=
  match vs with
  | [] => tgt
  | v :: vs' => write_from (<[pos := v]> tgt) (S pos) vs'
  end.

(** [tgt'] is [tgt] with [f k] stored at position [two + k] for every
    [0 <= k < n] that the target has, and nothing else changed. *)
Definition stores (tgt tgt' : list byte) (two n : Z) (f : Z -> byte) : Prop :=
  length tgt' = length tgt /\
  (forall k : Z, 0 <= k < n -> two + k < len tgt ->
                 tgt' !! Z.to_nat (two + k) = Some (f k)) /\
  (forall j : nat, ~ (two <= Z.of_nat j < two + n) -> tgt' !! j = tgt !! j).

(** One pass of a byte loop changes at most the byte under the write
    cursor, and moves that cursor by one. *)
Definition one_byte (st st' : state) : Prop :=
  target_write_offset st' = target_write_offset st + 1 /\
  forall j : nat, j <> Z.to_nat (target_write_offset st) ->
                  target st' !! j = target st !! j.

(** The write cursor is not negative, and the target is zero from the
    write cursor on. *)
Definition zero_tail (st : state) : Prop :=
  0 <= target_write_offset st /\
  forall j : nat,
    target_write_offset st <= Z.of_nat j -> (j < length (target st))%nat ->
    target st !! j = Some x00.

(** ** Two one-action patches

    Not from the source: the smallest patches that carry data, built
    with the encoders above, on which the whole call can be followed. *)

(** A container header with no metadata. *)
Definition header_bytes (source_size' target_size' : Z) : list byte :=
  magic ++ vlv_encode source_size' ++ vlv_encode target_size' ++ vlv_encode 0.

(** A container header that declares [metadata_size'] bytes of
    metadata. *)
Definition header_with (source_size' target_size' metadata_size' : Z)
    : list byte :=
  magic ++ vlv_encode source_size' ++ vlv_encode target_size'
  ++ vlv_encode metadata_size'.

(** One TargetRead that carries [data] itself (opcode: length - 1 in
    the upper bits, kind 1 in the lower two). *)
Definition literal_patch (data : list byte) : list byte :=
  header_bytes 0 (len data)
  ++ vlv_encode (4 * (len data - 1) + 1) ++ data ++ trailer.

(** One SourceRead of length [n] (kind 0). *)
Definition source_read_patch (n : Z) : list byte :=
  header_bytes n n ++ vlv_encode (4 * (n - 1)) ++ trailer.

(** ** rom_patcher.py: the name of the output file

    [apply_patch_from_url] cleans the level name twice (lines 416-418
    and 510-513) before it builds the output file name.  A Python [str]
    is a sequence of code points, here a list of [N];
    [str.isalnum] is a table of the Unicode database, taken as the
    parameter [isalnum]. *)

(** [c.isalnum() or c in (' ', '-', '_', '.')] *)
Definition allowed_char (isalnum : N -> bool) (c : N) : bool :=
  isalnum c || (c =? 32)%N || (c =? 45)%N || (c =? 95)%N || (c =? 46)%N.

(** ["".join(c for c in name if ...)[:100]] *)
Definition clean (isalnum : N -> bool) (name : list N) : list N :=
  take 100 (List.filter (allowed_char isalnum) name).

(** ["level"], ["patched_rom"] and [".smc"] *)
Definition str_level : list N := [108; 101; 118; 101; 108]%N.
Definition str_patched_rom : list N :=
  [112; 97; 116; 99; 104; 101; 100; 95; 114; 111; 109]%N.
Definition str_smc : list N := [46; 115; 109; 99]%N.

(** Lines 416-418: [level_name] after the first cleaning. *)
Definition sanitize_level_name (isalnum : N -> bool) (level_name : list N)
    : list N :=
  let level_name := clean isalnum level_name in
  if bool_decide (level_name = []) then str_level else level_name.

(** Lines 510-513: [output_filename], from the cleaned [level_name]. *)
Definition output_filename (isalnum : N -> bool) (level_name : list N)
    : list N :=
  let safe_filename := clean isalnum level_name in
  let safe_filename :=
    if bool_decide (safe_filename = []) then str_patched_rom else safe_filename in
  safe_filename ++ str_smc.

(** An instance of [isalnum] for the examples: the ASCII letters and
    digits. *)
Definition ascii_isalnum (c : N) : bool :=
  ((48 <=? c) && (c <=? 57) || (65 <=? c) && (c <=? 90)
   || (97 <=? c) && (c <=? 122))%N.

(** ** Concrete patches *)

(** A host for the examples: a 64-bit interpreter on a machine that
    gives up to 4 GiB to one buffer. *)
Definition example_host : Host := mkHost (2 ^ 63 - 1) (2 ^ 32).


(** Source size 0, target size 1, no metadata, one TargetRead of length
    1 carrying 0x7A. *)
Definition patch_minimal : list byte :=
  magic ++ [x80; x81; x80; x81; x7a]%byte ++ trailer.

(** Source size 0, target size 1, no metadata, no action at all. *)
Definition patch_no_action : list byte :=
  magic ++ [x80; x81; x80]%byte ++ trailer.

(** Source size 0, target size 2, no metadata; SourceCopy of length 1
    with relative offset -2 (opcode 0x82, offset 0x83), then SourceRead
    of length 1 (opcode 0x80). *)
Definition patch_source_read_after_copy : list byte :=
  magic ++ [x80; x82; x80; x82; x83; x80]%byte ++ trailer.

(** Source size 0, target size 6, no metadata; TargetRead of length 1
    carrying 0x41, then TargetCopy of length 5 (opcode 0x93) with
    relative offset -1 (0x81). *)
Definition patch_run_of_A : list byte :=
  magic ++ [x80; x86; x80; x81; x41; x93; x81]%byte ++ trailer.

(** Source size 0, target size 1, no metadata; one TargetRead of
    length 2 (opcode 0x85) carrying 0x41 0x42. *)
Definition patch_two_into_one : list byte :=
  magic ++ [x80; x81; x80; x85; x41; x42]%byte ++ trailer.

(** * Properties *)

(** ** Indexing *)

Lemma len_nonneg (data : list byte) : 0 <= len data.
Proof. unfold len. lia. Qed.

Lemma len_app (l1 l2 : list byte) : len (l1 ++ l2) = len l1 + len l2.
Proof. unfold len. rewrite length_app. lia. Qed.

(** Case analysis on the integer comparisons of the goal. *)
Ltac zcases :=
  repeat match goal with
  | |- context [?a <? ?b] => destruct (Z.ltb_spec a b)
  | |- context [?a <=? ?b] => destruct (Z.leb_spec a b)
  | |- context [?a =? ?b] => destruct (Z.eqb_spec a b)
  end; cbn [andb orb negb]; try lia.

Lemma py_getitem_in_range (data : list byte) (i : Z) :
  0 <= i < len data ->
  exists b, py_getitem data i = Ok b /\ data !! Z.to_nat i = Some b.
Proof.
  intros Hi. unfold py_getitem. zcases.
  destruct (data !! Z.to_nat i) as [b|] eqn:Hb; [eauto|].
  apply lookup_ge_None in Hb. unfold len in Hi. lia.
Qed.

Lemma py_setitem_in_range (data : list byte) (i : Z) (b : byte) :
  0 <= i < len data ->
  py_setitem data i b = Ok (<[Z.to_nat i := b]> data).
Proof. intros Hi. unfold py_setitem. zcases. reflexivity. Qed.

Lemma py_setitem_len (data data' : list byte) (i : Z) (b : byte) :
  py_setitem data i b = Ok data' -> len data' = len data.
Proof.
  unfold py_setitem. case (_ || _); [discriminate|].
  intros [= <-]. unfold len. by rewrite length_insert.
Qed.

Lemma byte_val_range (b : byte) : 0 <= byte_val b < 256.
Proof.
  unfold byte_val. pose proof (Byte.to_N_bounded b) as H. lia.
Qed.

Lemma byte_val_of_Z (z : Z) : 0 <= z < 256 -> byte_val (byte_of_Z z) = z.
Proof.
  intros Hz. unfold byte_val, byte_of_Z.
  destruct (Byte.of_N (Z.to_N z)) as [b|] eqn:Hb.
  - apply Byte.to_of_N in Hb. rewrite Hb. lia.
  - apply Byte.of_N_None_iff in Hb. lia.
Qed.

(** ** read_vlv: the loop and its variant *)

(** Any fuel that covers the variant gives the same outcome. *)
Lemma read_vlv_loop_fuel (data : list byte) (f1 f2 : nat) :
  forall offset result shift,
    (Z.to_nat (len data - offset) <= f1)%nat ->
    (Z.to_nat (len data - offset) <= f2)%nat ->
    read_vlv_loop f1 data offset result shift =
    read_vlv_loop f2 data offset result shift.
Proof.
  revert f2. induction f1 as [|f1 IH]; intros [|f2] offset result shift H1 H2;
    cbn [read_vlv_loop]; zcases; try reflexivity.
  destruct (py_getitem data offset) as [b|e]; cbn [bind]; [|reflexivity].
  destruct (negb _); [reflexivity|]. apply IH; lia.
Qed.

(** The model satisfies the equation of the source's [while] loop. *)
Lemma read_vlv_loop_unfold (data : list byte) (offset result shift : Z) :
  read_vlv_loop (Z.to_nat (len data - offset)) data offset result shift =
  if offset <? len data then
    do b <- py_getitem data offset;
    if negb (Z.land (byte_val b) 0x80 =? 0)
    then Ok (result + Z.land (byte_val b) 0x7F * shift, offset + 1)
    else read_vlv_loop (Z.to_nat (len data - (offset + 1))) data (offset + 1)
           (result + Z.land (byte_val b) 0x7F * shift) (Z.shiftl shift 7)
  else Ok (result, offset).
Proof.
  destruct (Z.ltb_spec offset (len data)) as [Hlt|Hge].
  - replace (Z.to_nat (len data - offset))
      with (S (Z.to_nat (len data - (offset + 1)))) by lia.
    cbn [read_vlv_loop]. zcases. reflexivity.
  - replace (Z.to_nat (len data - offset)) with O by lia. reflexivity.
Qed.

(** From a non-negative offset the decoder never raises; it consumes at
    least one byte when one is left and never moves past the end. *)
Lemma read_vlv_loop_ok (data : list byte) (fuel : nat) :
  forall offset result shift,
    0 <= offset -> 0 <= result -> 0 <= shift ->
    (Z.to_nat (len data - offset) <= fuel)%nat ->
    exists v off',
      read_vlv_loop fuel data offset result shift = Ok (v, off') /\
      offset <= off' /\ (offset < len data -> offset < off') /\
      off' <= Z.max offset (len data) /\ result <= v.
Proof.
  induction fuel as [|fuel IH]; intros offset result shift Ho Hr Hs Hf;
    cbn [read_vlv_loop].
  - exists result, offset. repeat split; lia.
  - destruct (Z.ltb_spec offset (len data)) as [Hlt|Hge].
    + destruct (py_getitem_in_range data offset) as (b & -> & _); [lia|].
      cbn [bind].
      assert (0 <= Z.land (byte_val b) 127) by (apply Z.land_nonneg; lia).
      destruct (negb _).
      * eexists _, _. split; [reflexivity|]. repeat split; nia.
      * destruct (IH (offset + 1) (result + Z.land (byte_val b) 127 * shift)
                    (Z.shiftl shift 7)) as (v & off' & -> & ? & ? & ? & ?);
          [lia | nia | by apply Z.shiftl_nonneg | lia |].
        exists v, off'. split; [reflexivity|]. repeat split; nia.
    + exists result, offset. repeat split; lia.
Qed.

Lemma read_vlv_ok (data : list byte) (offset : Z) :
  0 <= offset ->
  exists v off',
    read_vlv data offset = Ok (v, off') /\
    offset <= off' /\ (offset < len data -> offset < off') /\
    off' <= Z.max offset (len data) /\ 0 <= v.
Proof. intros Ho. apply read_vlv_loop_ok; lia. Qed.

(** Whatever the offset, a value that is returned is non-negative. *)
Lemma read_vlv_loop_nonneg (data : list byte) (fuel : nat) :
  forall offset result shift v off',
    0 <= result -> 0 <= shift ->
    read_vlv_loop fuel data offset result shift = Ok (v, off') -> 0 <= v.
Proof.
  induction fuel as [|fuel IH]; intros offset result shift v off' Hr Hs;
    cbn [read_vlv_loop].
  - intros [= <- _]. exact Hr.
  - destruct (offset <? len data); [|intros [= <- _]; exact Hr].
    destruct (py_getitem data offset) as [b|e]; cbn [bind]; [|discriminate].
    assert (0 <= Z.land (byte_val b) 127) by (apply Z.land_nonneg; lia).
    destruct (negb _); [intros [= <- _]; nia|].
    apply IH; [nia | by apply Z.shiftl_nonneg].
Qed.

Lemma read_vlv_nonneg (data : list byte) (offset v off' : Z) :
  read_vlv data offset = Ok (v, off') -> 0 <= v.
Proof. apply read_vlv_loop_nonneg; lia. Qed.

(** With no terminating byte left, the loop runs off the end and the
    function returns normally, at [len(data)]. *)
Lemma read_vlv_loop_truncated (data : list byte) (fuel : nat) :
  forall offset result shift,
    0 <= offset -> no_stop data offset (len data) ->
    (Z.to_nat (len data - offset) <= fuel)%nat ->
    exists v, read_vlv_loop fuel data offset result shift
              = Ok (v, Z.max offset (len data)).
Proof.
  induction fuel as [|fuel IH]; intros offset result shift Ho Hns Hf;
    cbn [read_vlv_loop].
  - exists result. do 2 f_equal. lia.
  - destruct (Z.ltb_spec offset (len data)) as [Hlt|Hge].
    + destruct (py_getitem_in_range data offset) as (b & -> & Hb); [lia|].
      cbn [bind]. rewrite (Hns offset b) by (assumption || lia). cbn.
      destruct (IH (offset + 1) (result + Z.land (byte_val b) 127 * shift)
                  (Z.shiftl shift 7)) as (v & ->); [lia | | lia |].
      * intros j c Hj. apply Hns. lia.
      * exists v. do 2 f_equal. lia.
    + exists result. do 2 f_equal. lia.
Qed.

(** With a first terminating byte at position [i], the function returns
    the offset right after it. *)
Lemma read_vlv_loop_stops (data : list byte) (i : Z) (b : byte) (fuel : nat) :
  data !! Z.to_nat i = Some b -> Z.land (byte_val b) 0x80 <> 0 ->
  forall offset result shift,
    0 <= offset <= i -> no_stop data offset i ->
    (Z.to_nat (len data - offset) <= fuel)%nat ->
    exists v, read_vlv_loop fuel data offset result shift = Ok (v, i + 1).
Proof.
  intros Hb Htop.
  assert (i < len data \/ i < 0) as Hi.
  { apply lookup_lt_Some in Hb. unfold len. lia. }
  induction fuel as [|fuel IH]; intros offset result shift Ho Hns Hf;
    cbn [read_vlv_loop]; [lia|].
  destruct (Z.ltb_spec offset (len data)) as [Hlt|Hge]; [|lia].
  destruct (py_getitem_in_range data offset) as (c & -> & Hc); [lia|].
  cbn [bind]. destruct (Z.eq_dec offset i) as [->|Hne].
  - assert (c = b) as -> by congruence.
    destruct (Z.eqb_spec (Z.land (byte_val b) 128) 0); [contradiction|].
    cbn. eauto.
  - rewrite (Hns offset c) by (assumption || lia). cbn.
    apply IH; [lia | | lia]. intros j d Hj. apply Hns. lia.
Qed.

(** ** Bit-level facts about the bytes of an encoding *)

Lemma low7_range (n : Z) : 0 <= Z.land n 0x7F < 128.
Proof.
  change 0x7F with (Z.ones 7). rewrite Z.land_ones by lia.
  apply Z.mod_pos_bound. lia.
Qed.

Lemma low7_split (n : Z) : n = Z.land n 0x7F + Z.shiftr n 7 * 128.
Proof.
  change 0x7F with (Z.ones 7). rewrite Z.land_ones, Z.shiftr_div_pow2 by lia.
  change (2 ^ 7) with 128. pose proof (Z.div_mod n 128). lia.
Qed.

Lemma low7_small (n : Z) : 0 <= n < 128 -> Z.land n 0x7F = n.
Proof.
  intros Hn. change 0x7F with (Z.ones 7). rewrite Z.land_ones by lia.
  apply Z.mod_small. lia.
Qed.

Lemma stop_byte_range (m : Z) : 0 <= m < 128 -> 0 <= Z.lor 0x80 m < 256.
Proof.
  intros Hm. pose proof (Z.add_lor_land 0x80 m) as Hadd.
  assert (0 <= Z.land 0x80 m) by (apply Z.land_nonneg; lia).
  assert (0 <= Z.lor 0x80 m) by (apply Z.lor_nonneg; lia). lia.
Qed.

Lemma stop_byte_low7 (n : Z) :
  Z.land (Z.lor 0x80 (Z.land n 0x7F)) 0x7F = Z.land n 0x7F.
Proof.
  rewrite Z.land_lor_distr_l, <- Z.land_assoc. reflexivity.
Qed.

Lemma stop_byte_top (n : Z) : Z.land (Z.lor 0x80 (Z.land n 0x7F)) 0x80 = 0x80.
Proof.
  rewrite Z.land_lor_distr_l, <- Z.land_assoc. cbn [Z.land Pos.land].
  rewrite Z.land_0_r. reflexivity.
Qed.

Lemma cont_byte_top (n : Z) : Z.land (Z.land n 0x7F) 0x80 = 0.
Proof. rewrite <- Z.land_assoc. cbn [Z.land Pos.land]. apply Z.land_0_r. Qed.

Lemma cont_byte_low7 (n : Z) : Z.land (Z.land n 0x7F) 0x7F = Z.land n 0x7F.
Proof. rewrite <- Z.land_assoc. reflexivity. Qed.

Lemma land1_odd (v : Z) : (Z.land v 1 =? 0) = negb (Z.odd v).
Proof.
  change 1 with (Z.ones 1) at 1. rewrite Z.land_ones by lia.
  change (2 ^ 1) with 2. rewrite Zmod_odd. by destruct (Z.odd v).
Qed.

(** ** read_vlv on the canonical encoding *)

Lemma py_getitem_middle (pre post : list byte) (b : byte) :
  py_getitem (pre ++ b :: post) (len pre) = Ok b.
Proof.
  destruct (py_getitem_in_range (pre ++ b :: post) (len pre)) as (c & -> & Hc).
  - rewrite len_app. unfold len. cbn [length]. lia.
  - unfold len in Hc. rewrite Nat2Z.id, list_lookup_middle in Hc by reflexivity.
    congruence.
Qed.

Lemma ltb_len_middle (pre post : list byte) (b : byte) :
  (len pre <? len (pre ++ b :: post)) = true.
Proof. apply Z.ltb_lt. rewrite len_app. unfold len. cbn [length]. lia. Qed.

Lemma vlv_encode_fuel_nonempty (fuel : nat) (n : Z) :
  (1 <= length (vlv_encode_fuel fuel n))%nat.
Proof. destruct fuel; cbn [vlv_encode_fuel]; [|case (n <? 128)]; cbn; lia. Qed.

Lemma read_vlv_loop_stop_byte (F : nat) (pre post : list byte) (n result shift : Z) :
  0 <= n < 128 ->
  read_vlv_loop (S F) (pre ++ byte_of_Z (Z.lor 0x80 (Z.land n 0x7F)) :: post)
                (len pre) result shift
  = Ok (result + n * shift, len pre + 1).
Proof.
  intros Hn. cbn [read_vlv_loop]. rewrite py_getitem_middle. cbn [bind].
  rewrite byte_val_of_Z by (apply stop_byte_range, low7_range).
  rewrite stop_byte_top, stop_byte_low7, low7_small by lia.
  rewrite ltb_len_middle. reflexivity.
Qed.

Lemma read_vlv_loop_encode (fuel : nat) :
  forall (n : Z) (pre post : list byte) (result shift : Z) (F : nat),
    0 <= n -> (Z.to_nat (Z.log2 n) <= fuel)%nat ->
    (length (vlv_encode_fuel fuel n ++ post) <= F)%nat ->
    read_vlv_loop F (pre ++ vlv_encode_fuel fuel n ++ post) (len pre) result shift
    = Ok (result + n * shift, len pre + len (vlv_encode_fuel fuel n)).
Proof.
  induction fuel as [|fuel IH]; intros n pre post result shift F Hn Hlog HF.
  - assert (n <= 1).
    { apply Z.log2_null. pose proof (Z.log2_nonneg n). lia. }
    cbn [vlv_encode_fuel] in *. destruct F as [|F]; [cbn in HF; lia|].
    apply read_vlv_loop_stop_byte. lia.
  - cbn [vlv_encode_fuel] in *. destruct (Z.ltb_spec n 128) as [Hlt|Hge].
    + destruct F as [|F]; [cbn in HF; lia|].
      apply read_vlv_loop_stop_byte. lia.
    + destruct F as [|F]; [cbn in HF; lia|].
      cbn [app read_vlv_loop]. rewrite py_getitem_middle, ltb_len_middle.
      cbn [bind]. pose proof (low7_range n) as Hlow.
      rewrite byte_val_of_Z by lia.
      rewrite cont_byte_top, cont_byte_low7. cbn [Z.eqb negb].
      rewrite cons_middle, app_assoc.
      replace (len pre + 1) with (len (pre ++ [byte_of_Z (Z.land n 0x7F)]))
        by (rewrite len_app; reflexivity).
      rewrite IH.
      * rewrite Z.shiftl_mul_pow2 by lia. change (2 ^ 7) with 128.
        rewrite len_app. unfold len. cbn [length].
        f_equal. f_equal; [|lia]. pose proof (low7_split n). lia.
      * apply Z.shiftr_nonneg. lia.
      * rewrite Z.log2_shiftr by lia. lia.
      * cbn [length app] in HF. lia.
Qed.

Lemma read_vlv_encode (n : Z) (pre post : list byte) :
  0 <= n ->
  read_vlv (pre ++ vlv_encode n ++ post) (len pre)
  = Ok (n, len pre + len (vlv_encode n)).
Proof.
  intros Hn. unfold read_vlv, vlv_encode.
  rewrite read_vlv_loop_encode; [do 2 f_equal; lia | lia | reflexivity |].
  rewrite !len_app. unfold len. rewrite length_app. lia.
Qed.

(** ** The four byte loops: how they move the cursors *)

Lemma py_getitem_raises (data : list byte) (i : Z) :
  index_error_only (py_getitem data i).
Proof.
  unfold py_getitem. intros e. destruct (_ || _); [congruence|].
  destruct (_ !! _); congruence.
Qed.

Lemma py_setitem_raises (data : list byte) (i : Z) (b : byte) :
  index_error_only (py_setitem data i b).
Proof. unfold py_setitem. intros e. destruct (_ || _); congruence. Qed.

Lemma bind_raises {A B : Type} (m : res A) (k : A -> res B) :
  index_error_only m -> (forall a, index_error_only (k a)) ->
  index_error_only (bind m k).
Proof.
  intros Hm Hk e. destruct m as [a|e']; cbn [bind].
  - apply Hk.
  - intros [= ->]. by apply Hm.
Qed.

Lemma ok_raises {A : Type} (a : A) : index_error_only (Ok a).
Proof. intros e. discriminate. Qed.

(** The write shared by the four loops: copy a byte that was read, or
    store zero, or leave the full target alone. *)
Lemma write_len (c1 c2 : bool) (rd : res byte) (tgt tgt' : list byte) (two : Z) :
  (if c1 then do b <- rd; py_setitem tgt two b
   else if c2 then py_setitem tgt two x00 else Ok tgt) = Ok tgt' ->
  len tgt' = len tgt.
Proof.
  destruct c1; [destruct rd as [b|]; cbn [bind]; [|discriminate]|destruct c2].
  - apply py_setitem_len.
  - apply py_setitem_len.
  - by intros [= <-].
Qed.

Lemma write_raises (c1 c2 : bool) (rd : res byte) (tgt : list byte) (two : Z) :
  index_error_only rd ->
  index_error_only
    (if c1 then do b <- rd; py_setitem tgt two b
     else if c2 then py_setitem tgt two x00 else Ok tgt).
Proof.
  intros Hrd. destruct c1; [|destruct c2].
  - apply bind_raises; [assumption|]. intros b. apply py_setitem_raises.
  - apply py_setitem_raises.
  - apply ok_raises.
Qed.

Ltac byte_step H :=
  match type of H with
  | bind ?w _ = Ok _ =>
      let tgt := fresh "tgt" in
      let Hw := fresh "Hw" in
      destruct w as [tgt|] eqn:Hw; cbn [bind] in H; [|discriminate];
      apply write_len in Hw; injection H as <-;
      unfold advanced; cbn; repeat split; (assumption || lia)
  end.

Lemma source_read_byte_advanced (source_rom : list byte) (st st' : state) :
  source_read_byte source_rom st = Ok st' -> advanced st st' 0 1 1.
Proof. unfold source_read_byte. intros H. byte_step H. Qed.

Lemma target_read_byte_advanced (patch_data : list byte) (st st' : state) :
  target_read_byte patch_data st = Ok st' -> advanced st st' 1 0 1.
Proof. unfold target_read_byte. intros H. byte_step H. Qed.

Lemma source_copy_byte_advanced (source_rom : list byte) (st st' : state) :
  source_copy_byte source_rom st = Ok st' -> advanced st st' 0 1 1.
Proof. unfold source_copy_byte. intros H. byte_step H. Qed.

Lemma target_copy_byte_advanced (cs cs' : Z * state) :
  target_copy_byte cs = Ok cs' -> advanced (snd cs) (snd cs') 0 0 1.
Proof.
  destruct cs as [copy_from st]. unfold target_copy_byte. intros H.
  byte_step H.
Qed.

Lemma source_read_byte_raises (source_rom : list byte) (st : state) :
  index_error_only (source_read_byte source_rom st).
Proof.
  apply bind_raises; [|intros; apply ok_raises].
  apply write_raises, py_getitem_raises.
Qed.

Lemma target_read_byte_raises (patch_data : list byte) (st : state) :
  index_error_only (target_read_byte patch_data st).
Proof.
  apply bind_raises; [|intros; apply ok_raises].
  apply write_raises, py_getitem_raises.
Qed.

Lemma source_copy_byte_raises (source_rom : list byte) (st : state) :
  index_error_only (source_copy_byte source_rom st).
Proof.
  apply bind_raises; [|intros; apply ok_raises].
  apply write_raises, py_getitem_raises.
Qed.

Lemma target_copy_byte_raises (cs : Z * state) :
  index_error_only (target_copy_byte cs).
Proof.
  destruct cs as [copy_from st].
  apply bind_raises; [|intros; apply ok_raises].
  apply write_raises, py_getitem_raises.
Qed.

(** ** for_range *)

Section ForRange.
Context {S : Type} (body : S -> res S) (proj : S -> state).

Lemma for_range_advanced (a b c : Z) :
  (forall s s', body s = Ok s' -> advanced (proj s) (proj s') a b c) ->
  forall (n : nat) (s s' : S),
    for_range n body s = Ok s' ->
    advanced (proj s) (proj s')
             (a * Z.of_nat n) (b * Z.of_nat n) (c * Z.of_nat n).
Proof.
  intros Hbody. induction n as [|n IH]; intros s s'; cbn [for_range].
  - intros [= <-]. unfold advanced. repeat split; lia.
  - destruct (body s) as [s1|] eqn:H1; cbn [bind]; [|discriminate].
    intros H2. apply Hbody in H1. apply IH in H2.
    unfold advanced in *. repeat split; lia.
Qed.

Lemma for_range_raises :
  (forall s, index_error_only (body s)) ->
  forall (n : nat) (s : S), index_error_only (for_range n body s).
Proof.
  intros Hbody. induction n as [|n IH]; intros s; cbn [for_range].
  - apply ok_raises.
  - apply bind_raises; [apply Hbody | apply IH].
Qed.
End ForRange.

(** ** One action *)

Lemma read_vlv_loop_raises (data : list byte) (fuel : nat) :
  forall offset result shift,
    index_error_only (read_vlv_loop fuel data offset result shift).
Proof.
  induction fuel as [|fuel IH]; intros offset result shift; cbn [read_vlv_loop].
  - apply ok_raises.
  - destruct (_ <? _); [|apply ok_raises].
    apply bind_raises; [apply py_getitem_raises|]. intros b.
    destruct (negb _); [apply ok_raises | apply IH].
Qed.

Lemma read_vlv_raises (data : list byte) (offset : Z) :
  index_error_only (read_vlv data offset).
Proof. apply read_vlv_loop_raises. Qed.

Lemma action_kind_range (action_raw : Z) : 0 <= Z.land action_raw 3 < 4.
Proof.
  change 3 with (Z.ones 2). rewrite Z.land_ones by lia.
  apply Z.mod_pos_bound. lia.
Qed.

Lemma loop_body_raises (source_rom patch_data : list byte) (st : state) :
  index_error_only (loop_body source_rom patch_data st).
Proof.
  unfold loop_body. apply bind_raises; [apply read_vlv_raises|].
  intros [action_raw o1]. cbn [fst snd].
  repeat match goal with |- context [if ?c then _ else _] => destruct c end.
  - apply for_range_raises, source_read_byte_raises.
  - apply for_range_raises, target_read_byte_raises.
  - apply bind_raises; [apply read_vlv_raises|]. intros copy_data.
    apply for_range_raises, source_copy_byte_raises.
  - apply bind_raises; [apply read_vlv_raises|]. intros copy_data.
    apply bind_raises; [|intros; apply ok_raises].
    apply for_range_raises, target_copy_byte_raises.
  - apply ok_raises.
Qed.

(** What one iteration that completes does to the state: the target
    cursor moves by the decoded length, whatever the action kind; the
    patch cursor does not move back from where the opcode ended. *)
Lemma loop_body_advanced (source_rom patch_data : list byte) (st st' : state) :
  loop_body source_rom patch_data st = Ok st' ->
  exists action_raw o1,
    read_vlv patch_data (offset st) = Ok (action_raw, o1) /\
    1 <= Z.shiftr action_raw 2 + 1 /\
    target_write_offset st'
      = target_write_offset st + (Z.shiftr action_raw 2 + 1) /\
    len (target st') = len (target st) /\
    iteration_count st' = iteration_count st /\
    (0 <= o1 -> o1 <= offset st').
Proof.
  unfold loop_body.
  destruct (read_vlv patch_data (offset st)) as [[action_raw o1]|] eqn:Hrd;
    cbn [bind fst snd]; [|discriminate].
  pose proof (read_vlv_nonneg _ _ _ _ Hrd) as Hraw.
  assert (0 <= Z.shiftr action_raw 2) as Hlen by (by apply Z.shiftr_nonneg).
  pose proof (action_kind_range action_raw) as Hkind.
  intros H. exists action_raw, o1. split; [reflexivity|]. split; [lia|].
  revert H.
  destruct (Z.eqb_spec (Z.land action_raw 3) 0) as [_|K0];
    [|destruct (Z.eqb_spec (Z.land action_raw 3) 1) as [_|K1];
      [|destruct (Z.eqb_spec (Z.land action_raw 3) 2) as [_|K2];
        [|destruct (Z.eqb_spec (Z.land action_raw 3) 3) as [_|K3]; [|lia]]]].
  - intros H.
    apply (for_range_advanced _ id 0 1 1 (source_read_byte_advanced _)) in H.
    unfold advanced, id in H. cbn in H. lia.
  - intros H.
    apply (for_range_advanced _ id 1 0 1 (target_read_byte_advanced _)) in H.
    unfold advanced, id in H. cbn in H. lia.
  - unfold set_offset; cbn [offset].
    destruct (read_vlv patch_data o1) as [[copy_offset o2]|] eqn:Hrd2;
      cbn [bind fst snd]; [|discriminate].
    intros H.
    apply (for_range_advanced _ id 0 1 1 (source_copy_byte_advanced _)) in H.
    unfold advanced, id in H. cbn in H, Hrd2.
    assert (0 <= o1 -> o1 <= o2).
    { intros Ho1. destruct (read_vlv_ok patch_data o1 Ho1)
        as (v & off' & Hv & Hle & _). rewrite Hrd2 in Hv.
      injection Hv as <- <-. exact Hle. }
    lia.
  - unfold set_offset; cbn [offset].
    destruct (read_vlv patch_data o1) as [[copy_offset o2]|] eqn:Hrd2;
      cbn [bind fst snd]; [|discriminate].
    destruct (for_range _ _ _) as [cs|] eqn:H; cbn [bind]; [|discriminate].
    intros [= <-].
    apply (for_range_advanced _ snd 0 0 1 target_copy_byte_advanced) in H.
    unfold advanced in H. cbn in H, Hrd2.
    assert (0 <= o1 -> o1 <= o2).
    { intros Ho1. destruct (read_vlv_ok patch_data o1 Ho1)
        as (v & off' & Hv & Hle & _). rewrite Hrd2 in Hv.
      injection Hv as <- <-. exact Hle. }
    lia.
Qed.

(** Each iteration that starts inside the patch moves the patch cursor
    forward by at least one byte. *)
Lemma loop_body_progress (source_rom patch_data : list byte) (st st' : state) :
  0 <= offset st < len patch_data ->
  loop_body source_rom patch_data st = Ok st' ->
  offset st < offset st'.
Proof.
  intros Ho H. apply loop_body_advanced in H.
  destruct H as (a & o1 & Hrd & _ & _ & _ & _ & Hmono).
  destruct (read_vlv_ok patch_data (offset st)) as (v & off' & Hv & _ & Hlt & _);
    [lia|].
  rewrite Hrd in Hv. injection Hv as <- <-. lia.
Qed.

(** ** The container header *)

Lemma bytearray_cases (host : Host) (n : Z) :
  0 <= n ->
  (exists e, bytearray host n = Raise e /\ (e = OverflowError \/ e = MemoryError))
  \/ bytearray host n = Ok (replicate (Z.to_nat n) x00).
Proof.
  intros Hn. unfold bytearray.
  destruct ((sys_maxsize host <? n) || (n <? - sys_maxsize host - 1));
    [left; eauto|].
  destruct (Z.ltb_spec n 0); [lia|].
  destruct (memory host <? n); [left; eauto|by right].
Qed.

Lemma bytearray_ok (host : Host) (n : Z) :
  0 <= n -> n <= sys_maxsize host -> n <= memory host ->
  bytearray host n = Ok (replicate (Z.to_nat n) x00).
Proof.
  intros Hn Hmax Hmem. unfold bytearray.
  destruct (Z.ltb_spec (sys_maxsize host) n); [lia|].
  destruct (Z.ltb_spec n (- sys_maxsize host - 1)); [lia|]. cbn [orb].
  destruct (Z.ltb_spec n 0); [lia|].
  destruct (Z.ltb_spec (memory host) n); [lia|reflexivity].
Qed.

(** Reading the header fails only in the allocation of the target. *)
Lemma read_header_cases (host : Host) (patch_data : list byte) :
  (exists e, read_header host patch_data = Raise e /\
             (e = OverflowError \/ e = MemoryError))
  \/ exists h, read_header host patch_data = Ok h.
Proof.
  unfold read_header.
  destruct (read_vlv_ok patch_data 4) as (v1 & o1 & -> & Ho1 & _ & _ & _); [lia|].
  cbn [bind snd].
  destruct (read_vlv_ok patch_data o1) as (v2 & o2 & -> & Ho2 & _ & _ & Hv2); [lia|].
  cbn [bind snd].
  destruct (read_vlv_ok patch_data o2) as (v3 & o3 & -> & Ho3 & _ & _ & Hv3); [lia|].
  cbn [bind snd fst].
  destruct (bytearray_cases host v2 Hv2) as [(e & Hb & He)|Hb]; rewrite Hb;
    cbn [bind]; [left|right]; eauto.
Qed.

Lemma read_header_inv (host : Host) (patch_data : list byte) (h : header) :
  read_header host patch_data = Ok h ->
  4 <= offset (initial h) /\
  0 <= target_size h /\
  target (initial h) = replicate (Z.to_nat (target_size h)) x00 /\
  target_write_offset (initial h) = 0 /\
  iteration_count (initial h) = 0.
Proof.
  unfold read_header.
  destruct (read_vlv_ok patch_data 4) as (v1 & o1 & -> & Ho1 & _ & _ & _); [lia|].
  cbn [bind snd].
  destruct (read_vlv_ok patch_data o1) as (v2 & o2 & -> & Ho2 & _ & _ & Hv2); [lia|].
  cbn [bind snd].
  destruct (read_vlv_ok patch_data o2) as (v3 & o3 & -> & Ho3 & _ & _ & Hv3); [lia|].
  cbn [bind snd fst].
  destruct (bytearray_cases host v2 Hv2) as [(e & Hb & He)|Hb]; rewrite Hb;
    cbn [bind]; [discriminate|].
  intros [= <-]. cbn. repeat split; lia.
Qed.

(** The size the header declares is the second value after the magic. *)
Lemma read_header_target_size (host : Host) (patch_data : list byte) (h : header) :
  read_header host patch_data = Ok h ->
  exists source_size' target_size',
    read_vlv patch_data 4 = Ok source_size' /\
    read_vlv patch_data (snd source_size') = Ok target_size' /\
    target_size h = fst target_size'.
Proof.
  unfold read_header.
  destruct (read_vlv patch_data 4) as [ss|] eqn:H1; cbn [bind]; [|discriminate].
  destruct (read_vlv patch_data (snd ss)) as [ts|] eqn:H2; cbn [bind];
    [|discriminate].
  destruct (read_vlv patch_data (snd ts)) as [ms|]; cbn [bind]; [|discriminate].
  destruct (bytearray host (fst ts)) as [tgt|]; cbn [bind]; [|discriminate].
  intros [= <-]. exists ss, ts. cbn. auto.
Qed.

(** ** The interpreter loop *)

Section WhileLoop.
Variables (source_rom patch_data : list byte) (max_iterations : Z).

Lemma while_loop_mono (fuel : nat) :
  forall (st : state) (r : res state) (fuel' : nat),
    while_loop fuel source_rom patch_data max_iterations st = Some r ->
    (fuel <= fuel')%nat ->
    while_loop fuel' source_rom patch_data max_iterations st = Some r.
Proof.
  induction fuel as [|fuel IH]; intros st r fuel' H Hle.
  - cbn [while_loop] in H. destruct (offset st <? _) eqn:Hc; [discriminate|].
    destruct fuel'; cbn [while_loop]; rewrite Hc; exact H.
  - destruct fuel' as [|fuel']; [lia|]. cbn [while_loop] in *.
    destruct (offset st <? _); [|exact H].
    destruct (max_iterations <? _); [exact H|].
    destruct (loop_body _ _ _); [|exact H]. apply (IH _ _ _ H). lia.
Qed.

(** The loop stops within [len(patch_data) - 12 - offset] iterations,
    and stays below any cap that leaves room for that many. *)
Lemma while_loop_terminates (fuel : nat) :
  forall st : state,
    0 <= offset st ->
    (Z.to_nat (len patch_data - 12 - offset st) <= fuel)%nat ->
    iteration_count st + Z.max 0 (len patch_data - 12 - offset st)
      <= max_iterations ->
    exists r,
      while_loop fuel source_rom patch_data max_iterations st = Some r /\
      r <> Raise MaxIterations /\
      forall st', r = Ok st' ->
        iteration_count st'
        <= iteration_count st + Z.max 0 (len patch_data - 12 - offset st).
Proof.
  induction fuel as [|fuel IH]; intros st Ho Hf Hcap; cbn [while_loop].
  - destruct (Z.ltb_spec (offset st) (len patch_data - 12)); [lia|].
    eexists. split; [reflexivity|]. split; [discriminate|].
    intros st' [= <-]. lia.
  - destruct (Z.ltb_spec (offset st) (len patch_data - 12)) as [Hlt|Hge].
    + cbn [counted iteration_count].
      destruct (Z.ltb_spec max_iterations (iteration_count st + 1)); [lia|].
      destruct (loop_body source_rom patch_data (counted st)) as [st1|e] eqn:Hb.
      * assert (offset (counted st) < offset st1) as Hp.
        { apply (loop_body_progress source_rom patch_data); [|exact Hb].
          unfold counted; cbn [offset]. lia. }
        apply loop_body_advanced in Hb.
        destruct Hb as (_ & _ & _ & _ & _ & _ & Hit & _). cbn in Hp, Hit.
        destruct (IH st1) as (r & Hr & Hne & Hcount); [lia | lia | lia |].
        exists r. split; [exact Hr|]. split; [exact Hne|].
        intros st' Hst'. specialize (Hcount st' Hst'). lia.
      * exists (Raise e). split; [reflexivity|]. split.
        -- intros [= ->]. by apply loop_body_raises in Hb.
        -- discriminate.
    + eexists. split; [reflexivity|]. split; [discriminate|].
      intros st' [= <-]. lia.
Qed.

Lemma while_loop_target_len (fuel : nat) :
  forall st st' : state,
    while_loop fuel source_rom patch_data max_iterations st = Some (Ok st') ->
    len (target st') = len (target st).
Proof.
  induction fuel as [|fuel IH]; intros st st'; cbn [while_loop].
  - destruct (_ <? _); [discriminate|]. by intros [= <-].
  - destruct (_ <? _); [|by intros [= <-]].
    destruct (_ <? _); [discriminate|].
    destruct (loop_body _ _ _) as [st1|] eqn:Hb; [|discriminate].
    intros H. apply IH in H. apply loop_body_advanced in Hb.
    destruct Hb as (_ & _ & _ & _ & _ & Hlen & _). cbn in Hlen. congruence.
Qed.

Lemma while_loop_raises (fuel : nat) :
  forall (st : state) (e : exn),
    while_loop fuel source_rom patch_data max_iterations st = Some (Raise e) ->
    e = MaxIterations \/ e = IndexError.
Proof.
  induction fuel as [|fuel IH]; intros st e; cbn [while_loop].
  - destruct (_ <? _); discriminate.
  - destruct (_ <? _); [|discriminate].
    destruct (_ <? _); [intros [= <-]; by left|].
    destruct (loop_body _ _ _) as [st1|e'] eqn:Hb.
    + apply IH.
    + intros [= <-]. right. by apply loop_body_raises in Hb.
Qed.

(** A run that completes interprets a sequence of actions, and the
    target cursor has moved by the sum of their lengths. *)
Lemma while_loop_interprets (fuel : nat) :
  forall st st' : state,
    while_loop fuel source_rom patch_data max_iterations st = Some (Ok st') ->
    exists lengths,
      interprets source_rom patch_data st lengths st' /\
      Forall (fun l => 1 <= l) lengths /\
      target_write_offset st' = target_write_offset st + total lengths.
Proof.
  induction fuel as [|fuel IH]; intros st st'; cbn [while_loop].
  - destruct (Z.ltb_spec (offset st) (len patch_data - 12)); [discriminate|].
    intros [= <-]. exists []. split; [by constructor|].
    split; [constructor | cbn; lia].
  - destruct (Z.ltb_spec (offset st) (len patch_data - 12)).
    + destruct (_ <? _); [discriminate|].
      destruct (loop_body _ _ _) as [st1|] eqn:Hb; [|discriminate].
      intros Hw. apply IH in Hw. destruct Hw as (lengths & Hint & Hall & Hsum).
      pose proof Hb as Hadv. apply loop_body_advanced in Hadv.
      destruct Hadv as (a & o1 & Hrd & Hpos & Htwo & _). cbn in Hrd, Htwo.
      exists ((Z.shiftr a 2 + 1) :: lengths). split; [|split].
      * by apply interprets_action with o1 st1.
      * by constructor.
      * cbn [total foldr]. fold (total lengths). lia.
    + intros [= <-]. exists []. split; [by constructor|].
      split; [constructor | cbn; lia].
Qed.


End WhileLoop.

(** ** The whole call *)

(** The four ways [apply_bps_patch] can go before the loop. *)
Lemma run_patch_cases (host : Host) (source_rom patch_data : list byte) :
  (len patch_data < 19 /\
   forall fuel, run_patch host fuel source_rom patch_data = Some (Raise PatchTooSmall))
  \/
  (19 <= len patch_data /\ take 4 patch_data <> magic /\
   forall fuel, run_patch host fuel source_rom patch_data = Some (Raise InvalidPatch))
  \/
  (19 <= len patch_data /\ take 4 patch_data = magic /\
   exists e, (e = OverflowError \/ e = MemoryError) /\
     forall fuel, run_patch host fuel source_rom patch_data = Some (Raise e))
  \/
  (19 <= len patch_data /\ take 4 patch_data = magic /\
   exists h, read_header host patch_data = Ok h /\
     forall fuel, run_patch host fuel source_rom patch_data
                  = while_loop fuel source_rom patch_data (len patch_data * 2)
                               (initial h)).
Proof.
  unfold run_patch.
  destruct (Z.ltb_spec (len patch_data) 19) as [Hshort|Hlong]; [by left|].
  right. destruct (bool_decide_reflect (take 4 patch_data = magic)) as [Hm|Hm];
    cbn [negb]; [right|by left].
  destruct (read_header_cases host patch_data) as [(e & Hh & He)|(h & Hh)];
    rewrite Hh; [left|right].
  - repeat split; [assumption..|]. exists e. by split.
  - repeat split; [assumption..|]. exists h. by split.
Qed.

Lemma run_patch_terminates (host : Host) (source_rom patch_data : list byte) :
  exists r,
    (forall fuel, (length patch_data <= fuel)%nat ->
                  run_patch host fuel source_rom patch_data = Some r) /\
    r <> Raise MaxIterations /\
    (forall st, r = Ok st -> iteration_count st <= len patch_data).
Proof.
  destruct (run_patch_cases host source_rom patch_data)
    as [[_ H]|[(_ & _ & H)|[(_ & _ & e & He & H)|(Hlen & _ & h & Hh & H)]]].
  - eexists. split; [intros; apply H|]. split; discriminate.
  - eexists. split; [intros; apply H|]. split; discriminate.
  - exists (Raise e). split; [intros; apply H|].
    split; [destruct He; congruence|discriminate].
  - destruct (read_header_inv host patch_data h Hh) as (Hoff & _ & _ & _ & Hit).
    destruct (while_loop_terminates source_rom patch_data (len patch_data * 2)
                (Z.to_nat (len patch_data - 12 - offset (initial h)))
                (initial h)) as (r & Hr & Hne & Hcount); [lia | lia | lia |].
    exists r. split; [|split; [exact Hne|]].
    + intros fuel Hfuel. rewrite H.
      apply (while_loop_mono _ _ _ _ _ _ _ Hr). unfold len in *. lia.
    + intros st Hst. specialize (Hcount st Hst). lia.
Qed.

Lemma run_patch_mono (host : Host) (source_rom patch_data : list byte) (fuel fuel' : nat)
    (r : res state) :
  run_patch host fuel source_rom patch_data = Some r -> (fuel <= fuel')%nat ->
  run_patch host fuel' source_rom patch_data = Some r.
Proof.
  destruct (run_patch_cases host source_rom patch_data)
    as [[_ H]|[(_ & _ & H)|[(_ & _ & e0 & _ & H)|(_ & _ & h & _ & H)]]];
    rewrite !H; try done.
  apply while_loop_mono.
Qed.

Lemma apply_run (host : Host) (fuel : nat) (source_rom patch_data out : list byte) :
  apply_bps_patch_fuel host fuel source_rom patch_data = Some (Ok out) ->
  exists st, run_patch host fuel source_rom patch_data = Some (Ok st) /\
             out = target st.
Proof.
  unfold apply_bps_patch_fuel.
  destruct (run_patch host _ _ _) as [[st|e]|]; [|discriminate..].
  intros [= <-]. eauto.
Qed.

Lemma apply_run_raise (host : Host) (fuel : nat) (source_rom patch_data : list byte) (e : exn) :
  apply_bps_patch_fuel host fuel source_rom patch_data = Some (Raise e) <->
  run_patch host fuel source_rom patch_data = Some (Raise e).
Proof.
  unfold apply_bps_patch_fuel.
  destruct (run_patch host _ _ _) as [[st|e']|]; split; congruence.
Qed.

(** The call is a function of its two arguments. *)
Lemma returns_functional (host : Host) (source_rom patch_data : list byte)
    (r1 r2 : res (list byte)) :
  returns host source_rom patch_data r1 -> returns host source_rom patch_data r2 ->
  r1 = r2.
Proof.
  intros [f1 H1] [f2 H2]. unfold apply_bps_patch_fuel in *.
  destruct (run_patch host f1 _ _) as [s1|] eqn:E1; [|discriminate].
  destruct (run_patch host f2 _ _) as [s2|] eqn:E2; [|discriminate].
  apply (run_patch_mono host _ _ _ (Nat.max f1 f2)) in E1; [|lia].
  apply (run_patch_mono host _ _ _ (Nat.max f1 f2)) in E2; [|lia].
  assert (s1 = s2) as -> by congruence.
  destruct s2; congruence.
Qed.

(** ** Reads outside a buffer *)

(** SourceCopy: a source cursor outside [0, len(source_rom)) stores
    zero at a valid target position. *)
Lemma source_copy_byte_zero_fill (source_rom : list byte) (st : state) :
  ~ (0 <= source_read_offset st < len source_rom) ->
  0 <= target_write_offset st < len (target st) ->
  source_copy_byte source_rom st
  = Ok (mkState (offset st) (source_read_offset st + 1)
                (target_write_offset st + 1)
                (<[Z.to_nat (target_write_offset st) := x00]> (target st))
                (iteration_count st)).
Proof.
  intros Hout Hin. unfold source_copy_byte.
  rewrite (py_setitem_in_range _ _ x00 Hin).
  destruct (Z.leb_spec 0 (source_read_offset st));
    destruct (Z.ltb_spec (source_read_offset st) (len source_rom));
    destruct (Z.ltb_spec (target_write_offset st) (len (target st)));
    cbn [andb bind]; (reflexivity || lia).
Qed.

(** TargetCopy: a read position outside the target stores zero at a
    valid target position. *)
Lemma target_copy_byte_zero_fill (copy_from : Z) (st : state) :
  ~ (0 <= copy_from < len (target st)) ->
  0 <= target_write_offset st < len (target st) ->
  target_copy_byte (copy_from, st)
  = Ok (copy_from + 1,
        mkState (offset st) (source_read_offset st)
                (target_write_offset st + 1)
                (<[Z.to_nat (target_write_offset st) := x00]> (target st))
                (iteration_count st)).
Proof.
  intros Hout Hin. unfold target_copy_byte.
  rewrite (py_setitem_in_range _ _ x00 Hin).
  destruct (Z.leb_spec 0 copy_from);
    destruct (Z.ltb_spec copy_from (target_write_offset st));
    destruct (Z.ltb_spec (target_write_offset st) (len (target st)));
    cbn [andb bind]; (reflexivity || lia).
Qed.

(** SourceRead: a source cursor at or past the end stores zero. *)
Lemma source_read_byte_zero_fill (source_rom : list byte) (st : state) :
  len source_rom <= source_read_offset st ->
  0 <= target_write_offset st < len (target st) ->
  source_read_byte source_rom st
  = Ok (mkState (offset st) (source_read_offset st + 1)
                (target_write_offset st + 1)
                (<[Z.to_nat (target_write_offset st) := x00]> (target st))
                (iteration_count st)).
Proof.
  intros Hout Hin. unfold source_read_byte.
  rewrite (py_setitem_in_range _ _ x00 Hin).
  destruct (Z.ltb_spec (source_read_offset st) (len source_rom));
    destruct (Z.ltb_spec (target_write_offset st) (len (target st)));
    cbn [andb bind]; (reflexivity || lia).
Qed.

(** SourceRead has no lower bound on the source cursor: a negative
    cursor is used as an index, which Python counts from the end of the
    source, or rejects when it is below [-len(source_rom)]. *)
Lemma source_read_byte_negative (source_rom : list byte) (st : state) :
  source_read_offset st < 0 ->
  0 <= target_write_offset st < len (target st) ->
  source_read_byte source_rom st
  = do b <- py_getitem source_rom (source_read_offset st);
    Ok (mkState (offset st) (source_read_offset st + 1)
                (target_write_offset st + 1)
                (<[Z.to_nat (target_write_offset st) := b]> (target st))
                (iteration_count st)).
Proof.
  intros Hneg Hin. unfold source_read_byte.
  pose proof (len_nonneg source_rom).
  destruct (Z.ltb_spec (source_read_offset st) (len source_rom)); [|lia].
  destruct (Z.ltb_spec (target_write_offset st) (len (target st))); [|lia].
  cbn [andb]. destruct (py_getitem _ _) as [b|]; cbn [bind]; [|reflexivity].
  by rewrite (py_setitem_in_range _ _ b Hin).
Qed.

Lemma py_getitem_below (data : list byte) (i : Z) :
  i < - len data -> py_getitem data i = Raise IndexError.
Proof.
  intros Hi. unfold py_getitem. pose proof (len_nonneg data).
  destruct (Z.ltb_spec i 0); [|lia].
  destruct (Z.ltb_spec (i + len data) 0); [reflexivity|lia].
Qed.

(** ** TargetCopy one position back *)

Lemma target_copy_run (n : nat) :
  forall (st : state) (b : byte),
    1 <= target_write_offset st ->
    target_write_offset st + Z.of_nat n <= len (target st) ->
    target st !! Z.to_nat (target_write_offset st - 1) = Some b ->
    for_range n target_copy_byte (target_write_offset st - 1, st)
    = Ok (target_write_offset st - 1 + Z.of_nat n,
          mkState (offset st) (source_read_offset st)
                  (target_write_offset st + Z.of_nat n)
                  (take (Z.to_nat (target_write_offset st)) (target st)
                   ++ replicate n b
                   ++ drop (Z.to_nat (target_write_offset st) + n) (target st))
                  (iteration_count st)).
Proof.
  induction n as [|n IH]; intros [off sro two tgt ic] b; cbn [for_range];
    cbn [offset source_read_offset target_write_offset target iteration_count];
    intros Hone Hfit Hb.
  - cbn [replicate app]. rewrite Nat.add_0_r, take_drop, !Z.add_0_r.
    reflexivity.
  - unfold target_copy_byte at 1.
    cbn [offset source_read_offset target_write_offset target iteration_count].
    destruct (Z.leb_spec 0 (two - 1)); [|lia].
    destruct (Z.ltb_spec (two - 1) two); [|lia].
    destruct (Z.ltb_spec two (len tgt)); [|lia]. cbn [andb].
    destruct (py_getitem_in_range tgt (two - 1)) as (c & -> & Hc); [lia|].
    assert (c = b) as -> by congruence. cbn [bind].
    rewrite py_setitem_in_range by lia. cbn [bind].
    assert (Z.to_nat two < length tgt)%nat as Hlt by (unfold len in *; lia).
    replace (two - 1 + 1) with (two + 1 - 1) by lia.
    pose (st1 := mkState off sro (two + 1) (<[Z.to_nat two := b]> tgt) ic).
    change (for_range n target_copy_byte (two + 1 - 1, _))
      with (for_range n target_copy_byte (target_write_offset st1 - 1, st1)).
    rewrite (IH st1 b); subst st1;
      cbn [offset source_read_offset target_write_offset target iteration_count].
    + apply f_equal. apply f_equal2; [lia|]. f_equal; [lia|].
      replace (Z.to_nat (two + 1)) with (S (Z.to_nat two)) by lia.
      rewrite (take_S_r _ _ b) by (by apply list_lookup_insert_eq).
      rewrite take_insert_ge by lia.
      rewrite drop_insert_lt by lia.
      rewrite <- app_assoc. cbn [app replicate].
      replace (S (Z.to_nat two) + n)%nat with (Z.to_nat two + S n)%nat by lia.
      reflexivity.
    + lia.
    + unfold len in *. rewrite length_insert. lia.
    + replace (Z.to_nat (two + 1 - 1)) with (Z.to_nat two) by lia.
      by apply list_lookup_insert_eq.
Qed.



Lemma decode_relative_odd_even (v : Z) :
  decode_relative v
  = if Z.odd v then - (Z.shiftr v 1 + 1) else Z.shiftr v 1.
Proof. unfold decode_relative. rewrite land1_odd. by destruct (Z.odd v). Qed.

Lemma decode_encode_relative (k : Z) :
  0 <= encode_relative k /\ decode_relative (encode_relative k) = k.
Proof.
  rewrite decode_relative_odd_even. unfold encode_relative.
  destruct (Z.ltb_spec k 0).
  - split; [lia|]. replace (2 * (- k - 1) + 1) with (1 + 2 * (- k - 1)) by lia.
    rewrite Z.odd_add_mul_2. cbn [Z.odd].
    rewrite Z.shiftr_div_pow2 by lia. change (2 ^ 1) with 2.
    replace ((1 + 2 * (- k - 1)) / 2) with (- k - 1); [lia|].
    apply Z.div_unique with 1; lia.
  - split; [lia|]. replace (2 * k) with (0 + 2 * k) by lia.
    rewrite Z.odd_add_mul_2. cbn [Z.odd].
    rewrite Z.shiftr_div_pow2 by lia. change (2 ^ 1) with 2.
    symmetry. apply Z.div_unique with 0; lia.
Qed.

(** ** read_vlv as a function on lists *)

Lemma vlv_value_range (l : list byte) :
  0 <= vlv_value l < 128 ^ Z.of_nat (length l).
Proof.
  induction l as [|b l IH]; cbn [vlv_value length]; [cbn; lia|].
  pose proof (low7_range (byte_val b)).
  rewrite Nat2Z.inj_succ, Z.pow_succ_r by lia. lia.
Qed.

Lemma vlv_span_length (l : list byte) : (length (vlv_span l) <= length l)%nat.
Proof.
  induction l as [|b l IH]; cbn [vlv_span length]; [lia|].
  destruct (_ =? _); cbn [length]; lia.
Qed.

Lemma vlv_span_nonempty (b : byte) (l : list byte) :
  (1 <= length (vlv_span (b :: l)))%nat.
Proof. cbn [vlv_span]. destruct (_ =? _); cbn [length]; lia. Qed.

(** The loop, run over any list [rest] that holds the bytes the loop
    will find from [offset] to the end of the data. *)
Lemma read_vlv_loop_span (data : list byte) :
  forall (rest : list byte) (fuel : nat) (offset result shift : Z),
    (forall (k : nat) (b : byte),
        rest !! k = Some b -> py_getitem data (offset + Z.of_nat k) = Ok b) ->
    len data - offset = Z.of_nat (length rest) ->
    (length rest <= fuel)%nat ->
    read_vlv_loop fuel data offset result shift
    = Ok (result + vlv_value (vlv_span rest) * shift,
          offset + len (vlv_span rest)).
Proof.
  induction rest as [|b rest IH]; intros fuel offset result shift Hget Hlen Hf.
  - cbn [length vlv_span vlv_value] in *. change (len []) with 0.
    destruct fuel; cbn [read_vlv_loop].
    + do 2 f_equal; lia.
    + destruct (Z.ltb_spec offset (len data)); [lia|]. do 2 f_equal; lia.
  - cbn [length] in *. destruct fuel as [|fuel]; [lia|]. cbn [read_vlv_loop].
    destruct (Z.ltb_spec offset (len data)); [|lia].
    pose proof (Hget O b eq_refl) as H0. rewrite Z.add_0_r in H0.
    rewrite H0. cbn [bind vlv_span].
    destruct (Z.eqb_spec (Z.land (byte_val b) 128) 0) as [Hz|Hnz]; cbn [negb].
    + rewrite IH.
      * cbn [vlv_value]. rewrite Z.shiftl_mul_pow2 by lia. change (2 ^ 7) with 128.
        unfold len. cbn [length]. f_equal. f_equal; lia.
      * intros k c Hk. specialize (Hget (S k) c Hk).
        rewrite <- Hget. f_equal. lia.
      * lia.
      * lia.
    + cbn [vlv_value]. unfold len. cbn [length]. f_equal. f_equal; lia.
Qed.

Lemma py_getitem_drop (data : list byte) (offset : Z) (k : nat) (b : byte) :
  0 <= offset ->
  drop (Z.to_nat offset) data !! k = Some b ->
  py_getitem data (offset + Z.of_nat k) = Ok b.
Proof.
  intros Ho Hk. rewrite lookup_drop in Hk.
  pose proof (lookup_lt_Some _ _ _ Hk) as Hlt.
  destruct (py_getitem_in_range data (offset + Z.of_nat k)) as (c & -> & Hc).
  - unfold len. lia.
  - replace (Z.to_nat (offset + Z.of_nat k)) with (Z.to_nat offset + k)%nat
      in Hc by lia. congruence.
Qed.

Lemma read_vlv_as_span (data : list byte) (offset : Z) :
  0 <= offset ->
  read_vlv data offset
  = Ok (vlv_value (vlv_span (drop (Z.to_nat offset) data)),
        offset + len (vlv_span (drop (Z.to_nat offset) data))).
Proof.
  intros Ho. unfold read_vlv.
  destruct (Z.le_gt_cases offset (len data)) as [Hle|Hgt].
  - rewrite (read_vlv_loop_span data (drop (Z.to_nat offset) data)).
    + f_equal. f_equal. lia.
    + intros k b. by apply py_getitem_drop.
    + rewrite length_drop. unfold len in *. lia.
    + rewrite length_drop. unfold len in *. lia.
  - replace (Z.to_nat (len data - offset)) with O by lia.
    rewrite drop_ge by (unfold len in *; lia).
    cbn. unfold len. cbn. do 2 f_equal. lia.
Qed.

(** Without a terminating byte the span is the whole list. *)
Lemma vlv_span_all (l : list byte) :
  (forall (k : nat) (b : byte),
      l !! k = Some b -> Z.land (byte_val b) 0x80 = 0) ->
  vlv_span l = l.
Proof.
  induction l as [|b l IH]; intros Hall; cbn [vlv_span]; [reflexivity|].
  rewrite (Hall O b eq_refl). cbn [Z.eqb]. f_equal. apply IH.
  intros k c Hk. apply (Hall (S k) c Hk).
Qed.

(** With a first terminating byte at position [k], the span ends
    there. *)
Lemma vlv_span_first (l : list byte) :
  forall (k : nat) (b : byte),
    l !! k = Some b -> Z.land (byte_val b) 0x80 <> 0 ->
    (forall (j : nat) (c : byte),
        (j < k)%nat -> l !! j = Some c -> Z.land (byte_val c) 0x80 = 0) ->
    vlv_span l = take (S k) l.
Proof.
  induction l as [|a l IH]; intros k b Hb Htop Hbefore; [discriminate|].
  cbn [vlv_span take]. destruct k as [|k].
  - injection Hb as ->.
    destruct (Z.eqb_spec (Z.land (byte_val b) 128) 0); [contradiction|].
    by rewrite take_0.
  - rewrite (Hbefore O a ltac:(lia) eq_refl). cbn [Z.eqb]. f_equal.
    apply (IH k b Hb Htop). intros j c Hj Hc. apply (Hbefore (S j) c); [lia|exact Hc].
Qed.

(** ** The model on the scenarios of the design document *)

Example vlv_encode_small :
  vlv_encode 0 = [x80] /\ vlv_encode 127 = [xff] /\
  vlv_encode 128 = [x00; x81]%byte /\ vlv_encode 300 = [x2c; x82]%byte.
Proof. repeat split. Qed.

Example read_vlv_small :
  read_vlv [x2c; x82; x7a]%byte 0 = Ok (300, 2) /\
  read_vlv [x2c; x82; x7a]%byte 2 = Ok (122, 3) /\
  read_vlv [x2c; x82; x7a]%byte 3 = Ok (0, 3).
Proof. repeat split. Qed.

(** Minimal container: the result is the single byte 0x7A. *)
Example minimal_container :
  apply_bps_patch_fuel example_host 1 [] patch_minimal = Some (Ok [x7a]).
Proof. vm_compute. reflexivity. Qed.

(** Writing 0x41 and then TargetCopy(offset -1, length 5) gives six
    bytes 0x41. *)
Example run_of_A :
  apply_bps_patch_fuel example_host 2 [] patch_run_of_A
  = Some (Ok [x41; x41; x41; x41; x41; x41]).
Proof. vm_compute. reflexivity. Qed.

(** A patch of 18 bytes is refused before anything is read. *)
Example truncated_magic :
  apply_bps_patch_fuel example_host 0 [] (magic ++ replicate 14 x00)
  = Some (Raise PatchTooSmall).
Proof. vm_compute. reflexivity. Qed.

(** An action stream that writes past the declared target: the call
    succeeds, the second byte is dropped and the cursor ends at 2. *)
Example cursor_past_target_size :
  exists st,
    run_patch example_host 1 [] patch_two_into_one = Some (Ok st) /\
    target_write_offset st = 2 /\ target st = [x41].
Proof. eexists. repeat split; vm_compute; reflexivity. Qed.

(** * The claims *)

(** C1.  Claim: every read outside its buffer, in SourceRead,
    SourceCopy and TargetCopy, stores 0x00 at the current target
    position instead of failing, also with a negative source cursor.
    SourceCopy and TargetCopy do so ([source_copy_byte_zero_fill],
    [target_copy_byte_zero_fill]), and SourceRead does past the end of
    the source; but SourceRead does not test the cursor against zero.
    On [patch_source_read_after_copy] the SourceCopy leaves the source
    cursor at -1 after storing one zero, and the SourceRead that follows
    indexes the source with -1: on an empty source the call fails with
    IndexError, on the one-byte source "A" it stores 0x41, not 0x00. *)
Theorem source_read_negative_cursor :
  (exists h st1,
     read_header example_host patch_source_read_after_copy = Ok h /\
     loop_body [] patch_source_read_after_copy (counted (initial h)) = Ok st1 /\
     source_read_offset st1 = -1 /\ target_write_offset st1 = 1 /\
     target st1 = [x00; x00] /\
     loop_body [] patch_source_read_after_copy (counted st1) = Raise IndexError) /\
  apply_bps_patch_fuel example_host 2 [] patch_source_read_after_copy
    = Some (Raise IndexError) /\
  apply_bps_patch_fuel example_host 2 [x41] patch_source_read_after_copy
    = Some (Ok [x00; x41]).
Proof.
  split; [|split; vm_compute; reflexivity].
  eexists _, _. split; [vm_compute; reflexivity|].
  split; [vm_compute; reflexivity|]. repeat split.
Qed.

(** C2, as stated, fails: on the one-byte sequence 0x01, which ends
    before any byte with the top bit set, the decoder does not fail; it
    returns the value 1 and the offset 1. *)
Lemma read_vlv_truncated_returns :
  no_stop [x01] 0 (len [x01]) /\ read_vlv [x01] 0 = Ok (1, 1).
Proof.
  split; [|reflexivity].
  intros j b Hj Hb.
  assert (j = 0) as -> by (unfold len in Hj; cbn in Hj; lia).
  cbn in Hb. by injection Hb as <-.
Qed.

(** C2, amended.  From every non-negative starting offset the
    variable-length-value decoder returns a value and never fails.
    When the sequence ends before a byte with the top bit set is seen,
    it returns the value accumulated from all the remaining bytes (their
    low seven bits as base-128 digits, least significant first) and the
    offset at the end of the sequence, or the starting offset if that is
    already past the end.  When a terminating byte occurs in the
    remaining bytes, it returns the value of the bytes up to and
    including the first one, and the offset right after it. *)
Theorem read_vlv_never_fails (data : list byte) (offset : Z) :
  0 <= offset ->
  exists v off',
    read_vlv data offset = Ok (v, off') /\
    (no_stop data offset (len data) ->
     v = vlv_value (drop (Z.to_nat offset) data) /\
     off' = Z.max offset (len data)) /\
    (forall i b, offset <= i -> data !! Z.to_nat i = Some b ->
                 Z.land (byte_val b) 0x80 <> 0 -> no_stop data offset i ->
                 v = vlv_value (take (Z.to_nat (i + 1 - offset))
                                     (drop (Z.to_nat offset) data)) /\
                 off' = i + 1).
Proof.
  intros Ho. rewrite read_vlv_as_span by exact Ho.
  eexists _, _. split; [reflexivity|]. split.
  - intros Hns. rewrite vlv_span_all.
    + split; [reflexivity|]. unfold len. rewrite length_drop. lia.
    + intros k b Hk. rewrite lookup_drop in Hk.
      pose proof (lookup_lt_Some _ _ _ Hk) as Hlt.
      apply (Hns (offset + Z.of_nat k)); [unfold len; lia|].
      by replace (Z.to_nat (offset + Z.of_nat k))
        with (Z.to_nat offset + k)%nat by lia.
  - intros i b Hi Hb Htop Hns.
    pose proof (lookup_lt_Some _ _ _ Hb) as Hlt.
    rewrite (vlv_span_first _ (Z.to_nat (i - offset)) b).
    + replace (S (Z.to_nat (i - offset))) with (Z.to_nat (i + 1 - offset)) by lia.
      split; [reflexivity|]. unfold len.
      rewrite length_take, length_drop. lia.
    + rewrite lookup_drop.
      by replace (Z.to_nat offset + Z.to_nat (i - offset))%nat
        with (Z.to_nat i) by lia.
    + exact Htop.
    + intros j c Hj Hc. rewrite lookup_drop in Hc.
      apply (Hns (offset + Z.of_nat j)); [lia|].
      by replace (Z.to_nat (offset + Z.of_nat j))
        with (Z.to_nat offset + j)%nat by lia.
Qed.

(** The theorem on a truncated value and on a terminated one. *)
Lemma read_vlv_never_fails_witness :
  read_vlv [x01; x02]%byte 0 = Ok (257, 2) /\
  read_vlv [x01; x82; x03]%byte 0 = Ok (257, 2).
Proof.
  split.
  - destruct (read_vlv_never_fails [x01; x02]%byte 0 ltac:(lia))
      as (v & off' & Hrd & Htrunc & _).
    destruct Htrunc as [-> ->]; [|exact Hrd].
    intros j b Hj Hb. unfold len in Hj. cbn in Hj.
    assert (j = 0 \/ j = 1) as [-> | ->] by lia;
      cbn in Hb; injection Hb as <-; reflexivity.
  - destruct (read_vlv_never_fails [x01; x82; x03]%byte 0 ltac:(lia))
      as (v & off' & Hrd & _ & Hstop).
    destruct (Hstop 1 x82 ltac:(lia) eq_refl) as [-> ->]; [discriminate| |exact Hrd].
    intros j b Hj Hb. assert (j = 0) as -> by lia.
    cbn in Hb. injection Hb as <-. reflexivity.
Defined.

(** C3, as stated, fails: [patch_no_action] declares a target of one
    byte and has an empty action stream; the call succeeds and returns
    one zero byte, with the target cursor still at 0. *)
Lemma success_with_cursor_short_of_target_size :
  exists h st,
    read_header example_host patch_no_action = Ok h /\ target_size h = 1 /\
    run_patch example_host 0 [] patch_no_action = Some (Ok st) /\
    target_write_offset st = 0 /\
    apply_bps_patch_fuel example_host 0 [] patch_no_action = Some (Ok [x00]).
Proof. eexists _, _. repeat split; vm_compute; reflexivity. Qed.

(** C3, amended.  For every call that returns successfully, the target
    write cursor after the action stream equals the sum of the decoded
    lengths of the interpreted actions, each of them at least 1; the
    code does not compare the cursor with the declared target size. *)
Theorem target_cursor_is_sum_of_lengths (host : Host)
    (fuel : nat) (source_rom patch_data : list byte) (st : state) :
  run_patch host fuel source_rom patch_data = Some (Ok st) ->
  exists h lengths,
    read_header host patch_data = Ok h /\
    interprets source_rom patch_data (initial h) lengths st /\
    Forall (fun l => 1 <= l) lengths /\
    target_write_offset st = total lengths.
Proof.
  destruct (run_patch_cases host source_rom patch_data)
    as [[_ H]|[(_ & _ & H)|[(_ & _ & e0 & _ & H)|(_ & _ & h & Hh & H)]]];
    rewrite H; [done..|].
  intros Hw. apply while_loop_interprets in Hw.
  destruct Hw as (lengths & Hint & Hall & Hsum).
  destruct (read_header_inv host patch_data h Hh) as (_ & _ & _ & Htwo & _).
  exists h, lengths. repeat split; [assumption..|lia].
Qed.

Lemma target_cursor_is_sum_of_lengths_witness :
  exists h lengths,
    read_header example_host patch_run_of_A = Ok h /\
    interprets [] patch_run_of_A (initial h) lengths
               (mkState 11 0 6 [x41; x41; x41; x41; x41; x41] 2) /\
    Forall (fun l => 1 <= l) lengths /\
    target_write_offset (mkState 11 0 6 [x41; x41; x41; x41; x41; x41] 2)
      = total lengths.
Proof.
  apply (target_cursor_is_sum_of_lengths example_host 2 [] patch_run_of_A).
  vm_compute. reflexivity.
Defined.

(** C4.  With at least one target byte written and room for N more, a
    TargetCopy action of length N whose offset decodes to -1 fills the
    next N target positions with the byte just before the write cursor,
    and moves the write cursor by N. *)
Theorem target_copy_repeats_previous_byte
    (source_rom patch_data : list byte) (st : state)
    (action_raw o1 copy_offset o2 : Z) (b : byte) :
  read_vlv patch_data (offset st) = Ok (action_raw, o1) ->
  Z.land action_raw 3 = 3 ->
  read_vlv patch_data o1 = Ok (copy_offset, o2) ->
  decode_relative copy_offset = -1 ->
  1 <= target_write_offset st ->
  target_write_offset st + (Z.shiftr action_raw 2 + 1) <= len (target st) ->
  target st !! Z.to_nat (target_write_offset st - 1) = Some b ->
  loop_body source_rom patch_data st
  = Ok (mkState o2 (source_read_offset st)
          (target_write_offset st + (Z.shiftr action_raw 2 + 1))
          (take (Z.to_nat (target_write_offset st)) (target st)
           ++ replicate (Z.to_nat (Z.shiftr action_raw 2 + 1)) b
           ++ drop (Z.to_nat (target_write_offset st)
                    + Z.to_nat (Z.shiftr action_raw 2 + 1)) (target st))
          (iteration_count st)).
Proof.
  intros Hrd Hkind Hrd2 Hrel Hone Hfit Hb.
  pose proof (read_vlv_nonneg _ _ _ _ Hrd) as Hraw.
  assert (0 <= Z.shiftr action_raw 2) as Hlen by (by apply Z.shiftr_nonneg).
  unfold loop_body. rewrite Hrd. cbn [bind fst snd]. rewrite Hkind.
  cbn [Z.eqb Pos.eqb]. unfold set_offset; cbn [offset].
  rewrite Hrd2. cbn [bind fst snd]. rewrite Hrel.
  cbn [target_write_offset].
  pose (st1 := mkState o2 (source_read_offset st) (target_write_offset st)
                       (target st) (iteration_count st)).
  change (for_range _ target_copy_byte _)
    with (for_range (Z.to_nat (Z.shiftr action_raw 2 + 1)) target_copy_byte
            (target_write_offset st1 + -1, st1)).
  replace (target_write_offset st1 + -1) with (target_write_offset st1 - 1)
    by lia.
  rewrite (target_copy_run _ st1 b); subst st1; cbn; [|lia|lia|exact Hb].
  do 2 f_equal. lia.
Qed.

Lemma target_copy_repeats_previous_byte_witness :
  loop_body [] patch_run_of_A (mkState 9 0 1 [x41; x00; x00; x00; x00; x00] 2)
  = Ok (mkState 11 0 6 [x41; x41; x41; x41; x41; x41] 2).
Proof.
  apply (target_copy_repeats_previous_byte [] patch_run_of_A
           (mkState 9 0 1 [x41; x00; x00; x00; x00; x00] 2) 19 10 1 11 x41);
    solve [vm_compute; reflexivity | cbn; lia | vm_compute; discriminate].
Defined.

(** C5.  For every non-negative integer n, decoding the canonical
    base-128 encoding of n, wherever it sits in a byte sequence, yields
    n and the offset right after the encoding's last byte. *)
Theorem vlv_round_trip (n : Z) (pre post : list byte) :
  0 <= n ->
  read_vlv (pre ++ vlv_encode n ++ post) (len pre)
  = Ok (n, len pre + len (vlv_encode n)).
Proof. apply read_vlv_encode. Qed.

Lemma vlv_round_trip_witness :
  0 <= 300 /\
  read_vlv (magic ++ vlv_encode 300 ++ trailer) (len magic)
  = Ok (300, len magic + len (vlv_encode 300)).
Proof. split; [lia|]. apply (vlv_round_trip 300 magic trailer). lia. Defined.

(** C6.  The signed relative offset of SourceCopy and TargetCopy is
    -((v >> 1) + 1) for an odd magnitude v and v >> 1 for an even one;
    magnitude 1 is offset -1; and every integer k, encoded as a
    magnitude, written as a variable-length value and read back through
    the two decoders, gives k. *)
Theorem signed_offset_round_trip (v k : Z) (pre post : list byte) :
  decode_relative v
    = (if Z.odd v then - (Z.shiftr v 1 + 1) else Z.shiftr v 1) /\
  decode_relative 1 = -1 /\
  encode_relative (-1) = 1 /\
  decode_relative (encode_relative k) = k /\
  (do r <- read_vlv (pre ++ vlv_encode (encode_relative k) ++ post) (len pre);
   Ok (decode_relative (fst r))) = Ok k.
Proof.
  destruct (decode_encode_relative k) as [Hpos Hk].
  split; [apply decode_relative_odd_even|].
  split; [reflexivity|]. split; [reflexivity|]. split; [exact Hk|].
  rewrite read_vlv_encode by exact Hpos. cbn [bind fst]. by rewrite Hk.
Qed.



(** C8.  The call fails with BadMagic exactly when the patch is shorter
    than 19 bytes or its first four bytes are not "BPS1"; the two
    checks come first, so for such a patch BadMagic is the only
    outcome, whatever the rest of the input. *)
Theorem bad_magic_iff (host : Host) (source_rom patch_data : list byte) :
  ((exists e, BadMagic e /\ returns host source_rom patch_data (Raise e))
   <-> (len patch_data < 19 \/ take 4 patch_data <> magic)) /\
  (len patch_data < 19 \/ take 4 patch_data <> magic ->
   exists e, BadMagic e /\
     forall fuel, apply_bps_patch_fuel host fuel source_rom patch_data
                  = Some (Raise e)).
Proof.
  assert (len patch_data < 19 \/ take 4 patch_data <> magic ->
          exists e, BadMagic e /\
            forall fuel, apply_bps_patch_fuel host fuel source_rom patch_data
                         = Some (Raise e)) as Hfirst.
  { intros Hbad.
    destruct (run_patch_cases host source_rom patch_data)
      as [[_ H]|[(_ & _ & H)|[(? & ? & _)|(? & ? & _)]]].
    - exists PatchTooSmall. split; [by left|].
      intros fuel. by apply apply_run_raise.
    - exists InvalidPatch. split; [by right|].
      intros fuel. by apply apply_run_raise.
    - destruct Hbad; [lia|contradiction].
    - destruct Hbad; [lia|contradiction]. }
  split; [split|exact Hfirst].
  - intros (e & Hbad & fuel & H). apply apply_run_raise in H.
    destruct (run_patch_cases host source_rom patch_data)
      as [[? _]|[(_ & ? & _)|[(_ & _ & e0 & He0 & Hrun)|(_ & _ & h & _ & Hrun)]]];
      [by left|by right| |].
    + rewrite Hrun in H. injection H as <-. destruct Hbad, He0; congruence.
    + rewrite Hrun in H. apply while_loop_raises in H.
      destruct Hbad, H; congruence.
  - intros Hbad. destruct (Hfirst Hbad) as (e & He & H).
    exists e. split; [exact He|]. exists O. apply H.
Qed.

(** C9.  For every call that returns successfully, the length of the
    returned byte sequence is the target size declared in the header
    (the second variable-length value after the magic), whatever the
    source is. *)
Theorem result_length_is_target_size (host : Host)
    (fuel : nat) (source_rom patch_data out : list byte) :
  apply_bps_patch_fuel host fuel source_rom patch_data = Some (Ok out) ->
  exists source_size' target_size',
    read_vlv patch_data 4 = Ok source_size' /\
    read_vlv patch_data (snd source_size') = Ok target_size' /\
    len out = fst target_size'.
Proof.
  intros H. apply apply_run in H. destruct H as (st & Hrun & ->).
  destruct (run_patch_cases host source_rom patch_data)
    as [[_ H]|[(_ & _ & H)|[(_ & _ & e0 & _ & H)|(_ & _ & h & Hh & H)]]];
    rewrite H in Hrun; [done..|].
  apply while_loop_target_len in Hrun.
  destruct (read_header_inv host patch_data h Hh) as (_ & Hsize & Htgt & _).
  destruct (read_header_target_size host _ _ Hh) as (ss & ts & H1 & H2 & Hts).
  exists ss, ts. split; [exact H1|]. split; [exact H2|].
  rewrite Hrun, Htgt, <- Hts. unfold len. rewrite length_replicate. lia.
Qed.

Lemma result_length_is_target_size_witness :
  exists source_size' target_size',
    read_vlv patch_minimal 4 = Ok source_size' /\
    read_vlv patch_minimal (snd source_size') = Ok target_size' /\
    len [x7a]%byte = fst target_size'.
Proof.
  apply (result_length_is_target_size example_host 1 [x41; x42; x43]%byte patch_minimal).
  vm_compute. reflexivity.
Defined.

(** C10.  The call terminates on every pair of inputs: an iteration
    that completes moves the patch cursor forward by at least one byte,
    so [len(patch)] iterations are always enough for the loop to stop
    (with a result or an exception), the iteration count never passes
    [len(patch)], and the cap of 2 x len(patch) is never exceeded. *)
Theorem apply_bps_patch_terminates (host : Host) (source_rom patch_data : list byte) :
  (forall st st',
      0 <= offset st < len patch_data - 12 ->
      loop_body source_rom patch_data (counted st) = Ok st' ->
      offset st + 1 <= offset st') /\
  exists r,
    (forall fuel, (length patch_data <= fuel)%nat ->
                  apply_bps_patch_fuel host fuel source_rom patch_data = Some r) /\
    r <> Raise MaxIterations /\
    (forall fuel st,
        run_patch host fuel source_rom patch_data = Some (Ok st) ->
        iteration_count st <= len patch_data /\
        iteration_count st <= len patch_data * 2).
Proof.
  split.
  - intros st st' Ho Hb.
    apply loop_body_progress in Hb; unfold counted in *; cbn [offset] in *; lia.
  - destruct (run_patch_terminates host source_rom patch_data) as (r & Hr & Hne & Hc).
    exists (match r with Ok st => Ok (target st) | Raise e => Raise e end).
    split; [|split].
    + intros fuel Hfuel. unfold apply_bps_patch_fuel. rewrite Hr by exact Hfuel.
      by destruct r.
    + destruct r; congruence.
    + intros fuel st H.
      apply (run_patch_mono host _ _ _ (Nat.max fuel (length patch_data))) in H;
        [|lia].
      rewrite Hr in H by lia. injection H as ->.
      specialize (Hc st eq_refl). pose proof (len_nonneg patch_data). lia.
Qed.

(** * Further properties of the source *)

(** X1.  From a non-negative offset, [read_vlv] reads the bytes up to
    and including the first one with the top bit set (or up to the end
    of the data), returns their low seven bits read as base-128 digits,
    least significant first, and the offset after the last byte read. *)
Theorem read_vlv_decodes_span (data : list byte) (offset : Z) :
  0 <= offset ->
  read_vlv data offset
  = Ok (vlv_value (vlv_span (drop (Z.to_nat offset) data)),
        offset + len (vlv_span (drop (Z.to_nat offset) data))).
Proof. apply read_vlv_as_span. Qed.

Lemma read_vlv_decodes_span_witness :
  read_vlv [x7a; x2c; x02; x81; x55]%byte 1
  = Ok (vlv_value (vlv_span (drop (Z.to_nat 1) [x7a; x2c; x02; x81; x55]%byte)),
        1 + len (vlv_span (drop (Z.to_nat 1) [x7a; x2c; x02; x81; x55]%byte))).
Proof. apply (read_vlv_decodes_span [x7a; x2c; x02; x81; x55]%byte 1). lia. Defined.

(** X2.  From a non-negative offset, the value [read_vlv] returns is
    below 128 to the number of bytes it consumed, and the offset it
    returns is neither before the starting offset nor past the end of
    the data (unless the starting offset already was); at or past the
    end it returns 0 and the offset unchanged. *)
Theorem read_vlv_bounds (data : list byte) (offset : Z) :
  0 <= offset ->
  exists v off',
    read_vlv data offset = Ok (v, off') /\
    offset <= off' <= Z.max offset (len data) /\
    0 <= v < 128 ^ (off' - offset) /\
    (len data <= offset -> v = 0 /\ off' = offset).
Proof.
  intros Ho. rewrite read_vlv_as_span by exact Ho.
  set (span := vlv_span (drop (Z.to_nat offset) data)).
  exists (vlv_value span), (offset + len span). split; [reflexivity|].
  pose proof (vlv_span_length (drop (Z.to_nat offset) data)) as Hspan.
  fold span in Hspan. rewrite length_drop in Hspan.
  pose proof (vlv_value_range span) as Hval.
  split; [unfold len; lia|]. split.
  - replace (offset + len span - offset) with (Z.of_nat (length span))
      by (unfold len; lia). exact Hval.
  - intros Hend. assert (length span = O) as Hz by (unfold len in *; lia).
    destruct span; [|discriminate]. cbn. unfold len. cbn. lia.
Qed.

Lemma read_vlv_bounds_witness :
  exists v off',
    read_vlv [x2c; x82; x7a]%byte 0 = Ok (v, off') /\
    0 <= off' <= Z.max 0 (len [x2c; x82; x7a]%byte) /\
    0 <= v < 128 ^ (off' - 0) /\
    (len [x2c; x82; x7a]%byte <= 0 -> v = 0 /\ off' = 0).
Proof. apply (read_vlv_bounds [x2c; x82; x7a]%byte 0). lia. Defined.

Lemma py_getitem_wrap (data : list byte) (i : Z) :
  i < 0 -> 0 <= i + len data ->
  py_getitem data i = py_getitem data (i + len data).
Proof.
  intros Hneg Hin. unfold py_getitem. cbv zeta.
  rewrite (proj2 (Z.ltb_lt i 0) Hneg). cbv iota.
  repeat (rewrite (proj2 (Z.ltb_ge (i + len data) 0) Hin); cbv iota).
  reflexivity.
Qed.

Lemma py_getitem_lookup (data : list byte) (i : nat) (b : byte) :
  data !! i = Some b -> py_getitem data (Z.of_nat i) = Ok b.
Proof.
  intros Hb. pose proof (lookup_lt_Some _ _ _ Hb).
  destruct (py_getitem_in_range data (Z.of_nat i)) as (c & -> & Hc).
  - unfold len. lia.
  - rewrite Nat2Z.id in Hc. congruence.
Qed.

(** X3.  A negative starting offset is used as a Python index: below
    [-len(data)] the call raises IndexError; from [-len(data)] on it
    reads the last [-offset] bytes of the data and then goes on at the
    first byte, decoding that sequence as one value. *)
Theorem read_vlv_negative_offset (data : list byte) (offset : Z) :
  (offset < - len data -> read_vlv data offset = Raise IndexError) /\
  (- len data <= offset < 0 ->
   read_vlv data offset
   = Ok (vlv_value (vlv_span (drop (Z.to_nat (len data + offset)) data ++ data)),
         offset
         + len (vlv_span (drop (Z.to_nat (len data + offset)) data ++ data)))).
Proof.
  pose proof (len_nonneg data) as Hlen. split; intros Ho; unfold read_vlv.
  - replace (Z.to_nat (len data - offset))
      with (S (Z.to_nat (len data - offset - 1))) by lia.
    cbn [read_vlv_loop]. destruct (Z.ltb_spec offset (len data)); [|lia].
    by rewrite py_getitem_below.
  - rewrite (read_vlv_loop_span data
               (drop (Z.to_nat (len data + offset)) data ++ data));
      [f_equal; f_equal; lia | | |].
    + intros k b Hk. apply lookup_app_Some in Hk.
      rewrite length_drop in Hk. destruct Hk as [Hk|[Hge Hk]].
      * pose proof (lookup_lt_Some _ _ _ Hk) as Hlt. rewrite length_drop in Hlt.
        rewrite lookup_drop in Hk.
        rewrite py_getitem_wrap by (unfold len in *; lia).
        replace (offset + Z.of_nat k + len data)
          with (Z.of_nat (Z.to_nat (len data + offset) + k)) by lia.
        by apply py_getitem_lookup.
      * replace (offset + Z.of_nat k)
          with (Z.of_nat (k - (length data - Z.to_nat (len data + offset))))
          by (unfold len in *; lia).
        by apply py_getitem_lookup.
    + rewrite length_app, length_drop. unfold len in *. lia.
    + rewrite length_app, length_drop. unfold len in *. lia.
Qed.

Example read_vlv_wraps :
  read_vlv [x81; x55; x03]%byte (-1) = Ok (131, 1) /\
  read_vlv [x81; x55; x03]%byte (-4) = Raise IndexError.
Proof. split; reflexivity. Qed.

(** ** What one pass of each byte loop stores *)

Lemma byte_at_in_range (data : list byte) (i : Z) :
  0 <= i < len data -> py_getitem data i = Ok (byte_at data i).
Proof.
  intros Hi. destruct (py_getitem_in_range data i Hi) as (b & -> & Hb).
  unfold byte_at. rewrite Hb.
  destruct (Z.leb_spec 0 i); [|lia]. destruct (Z.ltb_spec i (len data)); [|lia].
  reflexivity.
Qed.

Lemma byte_at_outside (data : list byte) (i : Z) :
  ~ (0 <= i < len data) -> byte_at data i = x00.
Proof.
  intros Hi. unfold byte_at.
  destruct (Z.leb_spec 0 i); destruct (Z.ltb_spec i (len data));
    cbn [andb]; (reflexivity || lia).
Qed.

Lemma byte_at_lookup (data : list byte) (i : Z) :
  0 <= i < len data -> data !! Z.to_nat i = Some (byte_at data i).
Proof.
  intros Hi. destruct (py_getitem_in_range data i Hi) as (b & Hget & Hb).
  rewrite byte_at_in_range in Hget by exact Hi. congruence.
Qed.

Lemma insert_past_end (tgt : list byte) (two : Z) (v : byte) :
  len tgt <= two -> <[Z.to_nat two := v]> tgt = tgt.
Proof. intros H. apply list_insert_ge. unfold len in H. lia. Qed.

Lemma source_copy_byte_spec (source_rom : list byte) (st : state) :
  0 <= target_write_offset st ->
  source_copy_byte source_rom st
  = Ok (mkState (offset st) (source_read_offset st + 1)
                (target_write_offset st + 1)
                (<[Z.to_nat (target_write_offset st)
                   := byte_at source_rom (source_read_offset st)]> (target st))
                (iteration_count st)).
Proof.
  intros Htwo.
  destruct (Z.lt_ge_cases (target_write_offset st) (len (target st))) as [Hin|Hfull].
  - destruct (Z.le_gt_cases 0 (source_read_offset st)) as [Hlo|Hlo];
      [destruct (Z.lt_ge_cases (source_read_offset st) (len source_rom)) as [Hhi|Hhi]|].
    + unfold source_copy_byte.
      destruct (Z.leb_spec 0 (source_read_offset st)); [|lia].
      destruct (Z.ltb_spec (source_read_offset st) (len source_rom)); [|lia].
      destruct (Z.ltb_spec (target_write_offset st) (len (target st))); [|lia].
      cbn [andb]. rewrite byte_at_in_range by lia. cbn [bind].
      by rewrite py_setitem_in_range by lia.
    + rewrite source_copy_byte_zero_fill by lia.
      by rewrite byte_at_outside by lia.
    + rewrite source_copy_byte_zero_fill by lia.
      by rewrite byte_at_outside by lia.
  - rewrite insert_past_end by exact Hfull. unfold source_copy_byte.
    destruct (Z.ltb_spec (target_write_offset st) (len (target st))); [lia|].
    rewrite andb_false_r. reflexivity.
Qed.

Lemma source_read_byte_spec (source_rom : list byte) (st : state) :
  0 <= target_write_offset st -> 0 <= source_read_offset st ->
  source_read_byte source_rom st = source_copy_byte source_rom st.
Proof.
  intros Htwo Hsro. unfold source_read_byte, source_copy_byte.
  destruct (Z.leb_spec 0 (source_read_offset st)); [|lia]. reflexivity.
Qed.

Lemma target_read_byte_spec (patch_data : list byte) (st : state) :
  0 <= target_write_offset st -> 0 <= offset st ->
  target_read_byte patch_data st
  = Ok (mkState (offset st + 1) (source_read_offset st)
                (target_write_offset st + 1)
                (<[Z.to_nat (target_write_offset st)
                   := byte_at patch_data (offset st)]> (target st))
                (iteration_count st)).
Proof.
  intros Htwo Hoff. unfold target_read_byte.
  destruct (Z.ltb_spec (target_write_offset st) (len (target st))) as [Hin|Hfull].
  - destruct (Z.ltb_spec (offset st) (len patch_data)) as [Hhi|Hhi]; cbn [andb].
    + rewrite byte_at_in_range by lia. cbn [bind].
      by rewrite py_setitem_in_range by lia.
    + rewrite py_setitem_in_range by lia. cbn [bind].
      by rewrite byte_at_outside by lia.
  - rewrite andb_false_r. cbn [bind]. by rewrite insert_past_end by exact Hfull.
Qed.

Lemma target_copy_byte_spec (copy_from : Z) (st : state) :
  0 <= target_write_offset st ->
  target_copy_byte (copy_from, st)
  = Ok (copy_from + 1,
        mkState (offset st) (source_read_offset st)
                (target_write_offset st + 1)
                (<[Z.to_nat (target_write_offset st)
                   := if copy_from <? target_write_offset st
                      then byte_at (target st) copy_from else x00]> (target st))
                (iteration_count st)).
Proof.
  intros Htwo. unfold target_copy_byte.
  destruct (Z.ltb_spec (target_write_offset st) (len (target st))) as [Hin|Hfull].
  - destruct (Z.ltb_spec copy_from (target_write_offset st)) as [Hlt|Hge];
      [destruct (Z.leb_spec 0 copy_from) as [Hlo|Hlo]|]; cbn [andb].
    + rewrite byte_at_in_range by lia. cbn [bind].
      by rewrite py_setitem_in_range by lia.
    + rewrite py_setitem_in_range by lia. cbn [bind].
      by rewrite byte_at_outside by lia.
    + rewrite andb_false_r. cbn [andb].
      by rewrite py_setitem_in_range by lia.
  - rewrite andb_false_r. cbn [bind]. by rewrite insert_past_end by exact Hfull.
Qed.

(** ** write_from and bytes_from *)

Lemma write_from_length (vs : list byte) :
  forall (tgt : list byte) (pos : nat),
    length (write_from tgt pos vs) = length tgt.
Proof.
  induction vs as [|v vs IH]; intros tgt pos; cbn [write_from]; [reflexivity|].
  by rewrite IH, length_insert.
Qed.

Lemma write_from_outside (vs : list byte) :
  forall (tgt : list byte) (pos j : nat),
    (j < pos \/ pos + length vs <= j)%nat ->
    write_from tgt pos vs !! j = tgt !! j.
Proof.
  induction vs as [|v vs IH]; intros tgt pos j Hj; cbn [write_from length] in *;
    [reflexivity|].
  rewrite IH by lia. apply list_lookup_insert_ne. lia.
Qed.

Lemma write_from_inside (vs : list byte) :
  forall (tgt : list byte) (pos k : nat) (v : byte),
    vs !! k = Some v -> (pos + k < length tgt)%nat ->
    write_from tgt pos vs !! (pos + k)%nat = Some v.
Proof.
  induction vs as [|v0 vs IH]; intros tgt pos k v Hk Hlt; [discriminate|].
  cbn [write_from]. destruct k as [|k].
  - injection Hk as ->. rewrite write_from_outside by lia.
    rewrite Nat.add_0_r. apply list_lookup_insert_eq. lia.
  - replace (pos + S k)%nat with (S pos + k)%nat by lia.
    apply IH; [exact Hk|]. rewrite length_insert. lia.
Qed.

Lemma write_from_fits (vs : list byte) :
  forall (tgt : list byte) (pos : nat),
    (pos + length vs <= length tgt)%nat ->
    write_from tgt pos vs = take pos tgt ++ vs ++ drop (pos + length vs) tgt.
Proof.
  induction vs as [|v vs IH]; intros tgt pos Hfit; cbn [write_from length] in *.
  - cbn [app]. by rewrite Nat.add_0_r, take_drop.
  - rewrite IH by (rewrite length_insert; lia).
    rewrite (take_S_r _ _ v) by (apply list_lookup_insert_eq; lia).
    rewrite take_insert_ge by lia. rewrite drop_insert_lt by lia.
    rewrite <- app_assoc. cbn [app].
    by replace (S pos + length vs)%nat with (pos + S (length vs))%nat by lia.
Qed.

Lemma bytes_from_length (data : list byte) (n : nat) :
  forall i, length (bytes_from data i n) = n.
Proof. induction n as [|n IH]; intros i; cbn [bytes_from length]; [|rewrite IH]; done. Qed.

Lemma bytes_from_lookup (data : list byte) (n : nat) :
  forall (i : Z) (k : nat),
    (k < n)%nat -> bytes_from data i n !! k = Some (byte_at data (i + Z.of_nat k)).
Proof.
  induction n as [|n IH]; intros i k Hk; [lia|]. cbn [bytes_from].
  destruct k as [|k]; cbn [lookup list_lookup].
  - by rewrite Z.add_0_r.
  - change (bytes_from data (i + 1) n !! k
            = Some (byte_at data (i + Z.of_nat (S k)))).
    rewrite IH by lia. do 2 f_equal. lia.
Qed.

(** Inside the data, [bytes_from] is a slice. *)
Lemma bytes_from_slice (data : list byte) (n : nat) :
  forall i : nat,
    (i + n <= length data)%nat ->
    bytes_from data (Z.of_nat i) n = take n (drop i data).
Proof.
  induction n as [|n IH]; intros i Hfit; cbn [bytes_from]; [by rewrite take_0|].
  destruct (drop i data) as [|b rest] eqn:Hdrop.
  - apply (f_equal length) in Hdrop. rewrite length_drop in Hdrop.
    cbn in Hdrop. lia.
  - assert (data !! i = Some b) as Hb.
    { rewrite <- (Nat.add_0_r i), <- lookup_drop, Hdrop. reflexivity. }
    assert (drop (S i) data = rest) as Hrest.
    { replace (S i) with (i + 1)%nat by lia. rewrite <- drop_drop, Hdrop.
      reflexivity. }
    cbn [take]. f_equal.
    + pose proof (byte_at_lookup data (Z.of_nat i)) as Hat.
      rewrite Nat2Z.id in Hat. rewrite Hb in Hat.
      symmetry. injection (Hat ltac:(unfold len; lia)) as <-. reflexivity.
    + replace (Z.of_nat i + 1) with (Z.of_nat (S i)) by lia.
      rewrite IH by lia. by rewrite Hrest.
Qed.

Lemma write_from_stores (tgt data : list byte) (two i : Z) (n : nat) :
  0 <= two ->
  stores tgt (write_from tgt (Z.to_nat two) (bytes_from data i n))
         two (Z.of_nat n) (fun k => byte_at data (i + k)).
Proof.
  intros Htwo. split; [apply write_from_length|]. split.
  - intros k Hk Hin.
    replace (Z.to_nat (two + k)) with (Z.to_nat two + Z.to_nat k)%nat by lia.
    rewrite (write_from_inside _ _ _ _ (byte_at data (i + k))).
    + reflexivity.
    + rewrite bytes_from_lookup by lia. do 2 f_equal. lia.
    + unfold len in Hin. lia.
  - intros j Hj. apply write_from_outside. rewrite bytes_from_length. lia.
Qed.

(** ** The byte loops as a whole *)

Lemma source_copy_loop (source_rom : list byte) (n : nat) :
  forall st : state,
    0 <= target_write_offset st ->
    for_range n (source_copy_byte source_rom) st
    = Ok (mkState (offset st) (source_read_offset st + Z.of_nat n)
                  (target_write_offset st + Z.of_nat n)
                  (write_from (target st) (Z.to_nat (target_write_offset st))
                              (bytes_from source_rom (source_read_offset st) n))
                  (iteration_count st)).
Proof.
  induction n as [|n IH]; intros [off sro two tgt ic];
    cbn [offset source_read_offset target_write_offset target iteration_count];
    intros Htwo; cbn [for_range bytes_from write_from].
  - by rewrite !Z.add_0_r.
  - rewrite source_copy_byte_spec by exact Htwo. cbn [bind].
    rewrite IH by (cbn; lia).
    cbn [offset source_read_offset target_write_offset target iteration_count].
    replace (Z.to_nat (two + 1)) with (S (Z.to_nat two)) by lia.
    f_equal. f_equal; lia.
Qed.

Lemma source_read_loop (source_rom : list byte) (n : nat) :
  forall st : state,
    0 <= target_write_offset st -> 0 <= source_read_offset st ->
    for_range n (source_read_byte source_rom) st
    = for_range n (source_copy_byte source_rom) st.
Proof.
  induction n as [|n IH]; intros st Htwo Hsro; cbn [for_range]; [reflexivity|].
  rewrite source_read_byte_spec by assumption.
  rewrite source_copy_byte_spec by exact Htwo. cbn [bind].
  apply IH; cbn; lia.
Qed.

Lemma target_read_loop (patch_data : list byte) (n : nat) :
  forall st : state,
    0 <= target_write_offset st -> 0 <= offset st ->
    for_range n (target_read_byte patch_data) st
    = Ok (mkState (offset st + Z.of_nat n) (source_read_offset st)
                  (target_write_offset st + Z.of_nat n)
                  (write_from (target st) (Z.to_nat (target_write_offset st))
                              (bytes_from patch_data (offset st) n))
                  (iteration_count st)).
Proof.
  induction n as [|n IH]; intros [off sro two tgt ic];
    cbn [offset source_read_offset target_write_offset target iteration_count];
    intros Htwo Hoff; cbn [for_range bytes_from write_from].
  - by rewrite !Z.add_0_r.
  - rewrite target_read_byte_spec by assumption. cbn [bind].
    rewrite IH by (cbn; lia).
    cbn [offset source_read_offset target_write_offset target iteration_count].
    replace (Z.to_nat (two + 1)) with (S (Z.to_nat two)) by lia.
    f_equal. f_equal; lia.
Qed.

(** The length an opcode carries. *)
Lemma action_length_pos (patch_data : list byte) (o action_raw o1 : Z) :
  read_vlv patch_data o = Ok (action_raw, o1) ->
  1 <= Z.shiftr action_raw 2 + 1.
Proof.
  intros Hrd. apply read_vlv_nonneg in Hrd.
  assert (0 <= Z.shiftr action_raw 2) by (by apply Z.shiftr_nonneg). lia.
Qed.

(** X4.  A SourceCopy action whose opcode and offset decode at the
    patch cursor moves the source cursor by the signed offset, then
    stores, for each of its [length] positions that the target has, the
    source byte under the source cursor, or zero when the source cursor
    is outside the source; it changes no other target byte and advances
    both cursors by [length]. *)
Theorem source_copy_action
    (source_rom patch_data : list byte) (st : state)
    (action_raw o1 copy_offset o2 : Z) :
  read_vlv patch_data (offset st) = Ok (action_raw, o1) ->
  Z.land action_raw 3 = 2 ->
  read_vlv patch_data o1 = Ok (copy_offset, o2) ->
  0 <= target_write_offset st ->
  exists st',
    loop_body source_rom patch_data st = Ok st' /\
    offset st' = o2 /\
    source_read_offset st'
      = source_read_offset st + decode_relative copy_offset
        + (Z.shiftr action_raw 2 + 1) /\
    target_write_offset st'
      = target_write_offset st + (Z.shiftr action_raw 2 + 1) /\
    iteration_count st' = iteration_count st /\
    stores (target st) (target st') (target_write_offset st)
           (Z.shiftr action_raw 2 + 1)
           (fun k => byte_at source_rom
                       (source_read_offset st + decode_relative copy_offset + k)).
Proof.
  intros Hrd Hkind Hrd2 Htwo. pose proof (action_length_pos _ _ _ _ Hrd) as Hlen.
  unfold loop_body. rewrite Hrd. cbn [bind fst snd]. rewrite Hkind.
  cbn [Z.eqb Pos.eqb]. unfold set_offset; cbn [offset]. rewrite Hrd2.
  cbn [bind fst snd source_read_offset target_write_offset target iteration_count].
  rewrite source_copy_loop by exact Htwo.
  cbn [offset source_read_offset target_write_offset target iteration_count].
  eexists. split; [reflexivity|]. cbn.
  repeat (split; [lia|]).
  pose proof (write_from_stores (target st) source_rom (target_write_offset st)
                (source_read_offset st + decode_relative copy_offset)
                (Z.to_nat (Z.shiftr action_raw 2 + 1)) Htwo) as Hst.
  by rewrite Z2Nat.id in Hst by lia.
Qed.

Lemma source_copy_action_witness :
  exists st',
    loop_body [x41; x42; x43]%byte patch_source_read_after_copy
              (mkState 7 3 0 [x00; x00] 1) = Ok st' /\
    offset st' = 9 /\
    source_read_offset st' = 3 + decode_relative 3 + (Z.shiftr 2 2 + 1) /\
    target_write_offset st' = 0 + (Z.shiftr 2 2 + 1) /\
    iteration_count st' = 1 /\
    stores [x00; x00] (target st') 0 (Z.shiftr 2 2 + 1)
           (fun k => byte_at [x41; x42; x43]%byte (3 + decode_relative 3 + k)).
Proof.
  apply (source_copy_action [x41; x42; x43]%byte patch_source_read_after_copy
           (mkState 7 3 0 [x00; x00] 1) 2 8 3 9);
    solve [vm_compute; reflexivity | cbn; lia].
Defined.

(** X5.  A TargetRead action stores, for each of its [length]
    positions that the target has, the patch byte under the patch
    cursor, or zero once the patch cursor is past the end of the patch;
    it changes no other target byte and advances the patch and target
    cursors by [length], the patch cursor also past the end. *)
Theorem target_read_action
    (source_rom patch_data : list byte) (st : state) (action_raw o1 : Z) :
  read_vlv patch_data (offset st) = Ok (action_raw, o1) ->
  Z.land action_raw 3 = 1 ->
  0 <= offset st -> 0 <= target_write_offset st ->
  exists st',
    loop_body source_rom patch_data st = Ok st' /\
    offset st' = o1 + (Z.shiftr action_raw 2 + 1) /\
    source_read_offset st' = source_read_offset st /\
    target_write_offset st'
      = target_write_offset st + (Z.shiftr action_raw 2 + 1) /\
    iteration_count st' = iteration_count st /\
    stores (target st) (target st') (target_write_offset st)
           (Z.shiftr action_raw 2 + 1)
           (fun k => byte_at patch_data (o1 + k)).
Proof.
  intros Hrd Hkind Hoff Htwo. pose proof (action_length_pos _ _ _ _ Hrd) as Hlen.
  assert (0 <= o1) as Ho1.
  { destruct (read_vlv_ok patch_data (offset st) Hoff) as (v & o & Hv & Hle & _).
    rewrite Hrd in Hv. injection Hv as <- <-. lia. }
  unfold loop_body. rewrite Hrd. cbn [bind fst snd]. rewrite Hkind.
  cbn [Z.eqb Pos.eqb]. unfold set_offset.
  rewrite target_read_loop by (cbn; lia).
  cbn [offset source_read_offset target_write_offset target iteration_count].
  eexists. split; [reflexivity|]. cbn.
  repeat (split; [lia|]).
  pose proof (write_from_stores (target st) patch_data (target_write_offset st)
                o1 (Z.to_nat (Z.shiftr action_raw 2 + 1)) Htwo) as Hst.
  by rewrite Z2Nat.id in Hst by lia.
Qed.

Lemma target_read_action_witness :
  exists st',
    loop_body [] patch_minimal (mkState 7 0 0 [x00] 1) = Ok st' /\
    offset st' = 8 + (Z.shiftr 1 2 + 1) /\
    source_read_offset st' = 0 /\
    target_write_offset st' = 0 + (Z.shiftr 1 2 + 1) /\
    iteration_count st' = 1 /\
    stores [x00] (target st') 0 (Z.shiftr 1 2 + 1)
           (fun k => byte_at patch_minimal (8 + k)).
Proof.
  apply (target_read_action [] patch_minimal (mkState 7 0 0 [x00] 1) 1 8);
    solve [vm_compute; reflexivity | cbn; lia].
Defined.

(** X6.  With a non-negative source cursor, a SourceRead action does
    what a SourceCopy with offset 0 does: it stores the source bytes
    from the source cursor on, zero past the end of the source, changes
    no other target byte, and advances the source and target cursors by
    [length]. *)
Theorem source_read_action
    (source_rom patch_data : list byte) (st : state) (action_raw o1 : Z) :
  read_vlv patch_data (offset st) = Ok (action_raw, o1) ->
  Z.land action_raw 3 = 0 ->
  0 <= source_read_offset st -> 0 <= target_write_offset st ->
  exists st',
    loop_body source_rom patch_data st = Ok st' /\
    offset st' = o1 /\
    source_read_offset st'
      = source_read_offset st + (Z.shiftr action_raw 2 + 1) /\
    target_write_offset st'
      = target_write_offset st + (Z.shiftr action_raw 2 + 1) /\
    iteration_count st' = iteration_count st /\
    stores (target st) (target st') (target_write_offset st)
           (Z.shiftr action_raw 2 + 1)
           (fun k => byte_at source_rom (source_read_offset st + k)).
Proof.
  intros Hrd Hkind Hsro Htwo. pose proof (action_length_pos _ _ _ _ Hrd) as Hlen.
  unfold loop_body. rewrite Hrd. cbn [bind fst snd]. rewrite Hkind.
  cbn [Z.eqb]. unfold set_offset.
  rewrite source_read_loop, source_copy_loop by (cbn; lia).
  cbn [offset source_read_offset target_write_offset target iteration_count].
  eexists. split; [reflexivity|]. cbn.
  repeat (split; [lia|]).
  pose proof (write_from_stores (target st) source_rom (target_write_offset st)
                (source_read_offset st)
                (Z.to_nat (Z.shiftr action_raw 2 + 1)) Htwo) as Hst.
  by rewrite Z2Nat.id in Hst by lia.
Qed.

Lemma source_read_action_witness :
  exists st',
    loop_body [x41]%byte patch_source_read_after_copy
              (mkState 9 0 1 [x00; x00] 2) = Ok st' /\
    offset st' = 10 /\
    source_read_offset st' = 0 + (Z.shiftr 0 2 + 1) /\
    target_write_offset st' = 1 + (Z.shiftr 0 2 + 1) /\
    iteration_count st' = 2 /\
    stores [x00; x00] (target st') 1 (Z.shiftr 0 2 + 1)
           (fun k => byte_at [x41]%byte (0 + k)).
Proof.
  apply (source_read_action [x41]%byte patch_source_read_after_copy
           (mkState 9 0 1 [x00; x00] 2) 0 10);
    solve [vm_compute; reflexivity | cbn; lia].
Defined.

(** ** TargetCopy at any distance *)

Lemma target_copy_loop (n : nat) :
  forall (copy_from : Z) (st : state),
    0 <= target_write_offset st ->
    exists st',
      for_range n target_copy_byte (copy_from, st)
      = Ok (copy_from + Z.of_nat n, st') /\
      offset st' = offset st /\
      source_read_offset st' = source_read_offset st /\
      target_write_offset st' = target_write_offset st + Z.of_nat n /\
      iteration_count st' = iteration_count st /\
      stores (target st) (target st') (target_write_offset st) (Z.of_nat n)
             (fun k => if (0 <=? copy_from + k)
                          && (copy_from <? target_write_offset st)
                       then default x00 (target st' !! Z.to_nat (copy_from + k))
                       else x00).
Proof.
  induction n as [|n IH]; intros cf [off sro two tgt ic];
    cbn [offset source_read_offset target_write_offset target iteration_count];
    intros Htwo; cbn [for_range].
  - eexists. split; [by rewrite Z.add_0_r|]. unfold stores. cbn.
    split_and!; first [lia | reflexivity | intros; lia | intros; reflexivity].
  - rewrite target_copy_byte_spec by exact Htwo. cbn [bind].
    cbn [offset source_read_offset target_write_offset target iteration_count].
    set (v0 := if cf <? two then byte_at tgt cf else x00).
    destruct (IH (cf + 1) (mkState off sro (two + 1) (<[Z.to_nat two := v0]> tgt) ic))
      as (st' & Hrun & Hoff & Hsro & Htw & Hic & Hlen & Hin & Hout); [cbn; lia|].
    cbn [offset source_read_offset target_write_offset target iteration_count] in *.
    rewrite length_insert in Hlen.
    exists st'. split; [rewrite Hrun; do 2 f_equal; lia|].
    do 4 (split; [lia|]). split; [exact Hlen|]. split.
    + intros k Hk Hfit. destruct (Z.eq_dec k 0) as [->|Hk0].
      * rewrite !Z.add_0_r.
        rewrite Hout by lia.
        rewrite list_lookup_insert_eq by (unfold len in Hfit; lia).
        f_equal. subst v0.
        destruct (Z.ltb_spec cf two) as [Hlt|Hge];
          [destruct (Z.leb_spec 0 cf) as [Hlo|Hlo]|]; cbn [andb].
        -- rewrite Hout by lia.
           rewrite list_lookup_insert_ne by lia.
           rewrite byte_at_lookup by lia. reflexivity.
        -- apply byte_at_outside. lia.
        -- by rewrite andb_false_r.
      * specialize (Hin (k - 1)).
        replace (two + 1 + (k - 1)) with (two + k) in Hin by lia.
        replace (cf + 1 + (k - 1)) with (cf + k) in Hin by lia.
        rewrite Hin; [|lia|unfold len in *; rewrite length_insert; lia].
        f_equal.
        destruct (Z.ltb_spec (cf + 1) (two + 1));
          destruct (Z.ltb_spec cf two); (reflexivity || lia).
    + intros j Hj. rewrite Hout by lia. apply list_lookup_insert_ne. lia.
Qed.

(** X7.  A TargetCopy action stores, at each of its [length] positions
    that the target has, the byte that the finished target holds
    [-offset] positions earlier when the decoded offset is negative and
    that position is not before the start of the target, and zero
    otherwise; so a negative offset -d repeats the d bytes before the
    write cursor.  It changes no other target byte and advances the
    target cursor by [length]. *)
Theorem target_copy_action
    (source_rom patch_data : list byte) (st : state)
    (action_raw o1 copy_offset o2 : Z) :
  read_vlv patch_data (offset st) = Ok (action_raw, o1) ->
  Z.land action_raw 3 = 3 ->
  read_vlv patch_data o1 = Ok (copy_offset, o2) ->
  0 <= target_write_offset st ->
  exists st',
    loop_body source_rom patch_data st = Ok st' /\
    offset st' = o2 /\
    source_read_offset st' = source_read_offset st /\
    target_write_offset st'
      = target_write_offset st + (Z.shiftr action_raw 2 + 1) /\
    iteration_count st' = iteration_count st /\
    stores (target st) (target st') (target_write_offset st)
           (Z.shiftr action_raw 2 + 1)
           (fun k =>
              if (0 <=? target_write_offset st + decode_relative copy_offset + k)
                 && (decode_relative copy_offset <? 0)
              then default x00
                     (target st' !! Z.to_nat (target_write_offset st
                                              + decode_relative copy_offset + k))
              else x00).
Proof.
  intros Hrd Hkind Hrd2 Htwo. pose proof (action_length_pos _ _ _ _ Hrd) as Hlen.
  unfold loop_body. rewrite Hrd. cbn [bind fst snd]. rewrite Hkind.
  cbn [Z.eqb Pos.eqb]. unfold set_offset; cbn [offset]. rewrite Hrd2.
  cbn [bind fst snd source_read_offset target_write_offset target iteration_count].
  destruct (target_copy_loop (Z.to_nat (Z.shiftr action_raw 2 + 1))
              (target_write_offset st + decode_relative copy_offset)
              (mkState o2 (source_read_offset st) (target_write_offset st)
                       (target st) (iteration_count st)))
    as (st' & Hrun & Hoff & Hsro & Htw & Hic & Hst); [exact Htwo|].
  cbn [offset source_read_offset target_write_offset target iteration_count] in *.
  rewrite Hrun. cbn [bind snd]. exists st'. split; [reflexivity|].
  rewrite Z2Nat.id in * by lia. repeat (split; [assumption|]).
  destruct Hst as (H1 & H2 & H3). split; [exact H1|]. split; [|exact H3].
  intros k Hk Hfit. rewrite (H2 k Hk Hfit). f_equal.
  destruct (Z.ltb_spec (target_write_offset st + decode_relative copy_offset)
              (target_write_offset st));
    destruct (Z.ltb_spec (decode_relative copy_offset) 0); (reflexivity || lia).
Qed.

Lemma target_copy_action_witness :
  exists st',
    loop_body [] patch_run_of_A (mkState 9 0 1 [x41; x00; x00; x00; x00; x00] 2)
    = Ok st' /\
    offset st' = 11 /\
    source_read_offset st' = 0 /\
    target_write_offset st' = 1 + (Z.shiftr 19 2 + 1) /\
    iteration_count st' = 2 /\
    stores [x41; x00; x00; x00; x00; x00] (target st') 1 (Z.shiftr 19 2 + 1)
           (fun k =>
              if (0 <=? 1 + decode_relative 1 + k) && (decode_relative 1 <? 0)
              then default x00
                     (target st' !! Z.to_nat (1 + decode_relative 1 + k))
              else x00).
Proof.
  apply (target_copy_action [] patch_run_of_A
           (mkState 9 0 1 [x41; x00; x00; x00; x00; x00] 2) 19 10 1 11);
    solve [vm_compute; reflexivity | cbn; lia].
Defined.

(** ** Which target bytes an action can change *)

Lemma py_setitem_nonneg (tgt tgt' : list byte) (two : Z) (b : byte) :
  0 <= two -> py_setitem tgt two b = Ok tgt' ->
  tgt' = <[Z.to_nat two := b]> tgt.
Proof.
  intros Htwo. unfold py_setitem. destruct (Z.ltb_spec two 0); [lia|].
  destruct (_ || _); [discriminate|]. by intros [= <-].
Qed.

Lemma write_frame (c1 c2 : bool) (rd : res byte) (tgt tgt' : list byte) (two : Z) :
  0 <= two ->
  (if c1 then do b <- rd; py_setitem tgt two b
   else if c2 then py_setitem tgt two x00 else Ok tgt) = Ok tgt' ->
  forall j : nat, j <> Z.to_nat two -> tgt' !! j = tgt !! j.
Proof.
  intros Htwo H j Hj.
  destruct c1; [destruct rd as [b|]; cbn [bind] in H; [|discriminate]|destruct c2].
  - apply py_setitem_nonneg in H; [|exact Htwo]. subst tgt'.
    by apply list_lookup_insert_ne.
  - apply py_setitem_nonneg in H; [|exact Htwo]. subst tgt'.
    by apply list_lookup_insert_ne.
  - by injection H as <-.
Qed.

Ltac one_byte_step H Htwo :=
  match type of H with
  | bind ?w _ = Ok _ =>
      let tgt := fresh "tgt" in
      let Hw := fresh "Hw" in
      destruct w as [tgt|] eqn:Hw; cbn [bind] in H; [|discriminate];
      pose proof (write_frame _ _ _ _ _ _ Htwo Hw); injection H as <-;
      split; [reflexivity | assumption]
  end.

Lemma source_read_byte_one (source_rom : list byte) (st st' : state) :
  0 <= target_write_offset st ->
  source_read_byte source_rom st = Ok st' -> one_byte st st'.
Proof. unfold source_read_byte. intros Htwo H. one_byte_step H Htwo. Qed.

Lemma target_read_byte_one (patch_data : list byte) (st st' : state) :
  0 <= target_write_offset st ->
  target_read_byte patch_data st = Ok st' -> one_byte st st'.
Proof. unfold target_read_byte. intros Htwo H. one_byte_step H Htwo. Qed.

Lemma source_copy_byte_one (source_rom : list byte) (st st' : state) :
  0 <= target_write_offset st ->
  source_copy_byte source_rom st = Ok st' -> one_byte st st'.
Proof. unfold source_copy_byte. intros Htwo H. one_byte_step H Htwo. Qed.

Lemma target_copy_byte_one (cs cs' : Z * state) :
  0 <= target_write_offset (snd cs) ->
  target_copy_byte cs = Ok cs' -> one_byte (snd cs) (snd cs').
Proof.
  destruct cs as [copy_from st]. unfold target_copy_byte. cbn [snd].
  intros Htwo H. one_byte_step H Htwo.
Qed.

Section ForRangeFrame.
Context {S : Type} (body : S -> res S) (proj : S -> state).
Hypothesis body_one :
  forall s s', 0 <= target_write_offset (proj s) -> body s = Ok s' ->
               one_byte (proj s) (proj s').

Lemma for_range_frame (n : nat) :
  forall s s' : S,
    0 <= target_write_offset (proj s) ->
    for_range n body s = Ok s' ->
    forall j : nat,
      (Z.of_nat j < target_write_offset (proj s)
       \/ target_write_offset (proj s) + Z.of_nat n <= Z.of_nat j) ->
      target (proj s') !! j = target (proj s) !! j.
Proof.
  induction n as [|n IH]; intros s s' Htwo; cbn [for_range].
  - by intros [= <-].
  - destruct (body s) as [s1|] eqn:H1; cbn [bind]; [|discriminate].
    intros H2 j Hj. destruct (body_one _ _ Htwo H1) as [Hnext Hsame].
    rewrite (IH s1 s') by (assumption || lia). apply Hsame. lia.
Qed.
End ForRangeFrame.

Lemma loop_body_frame (source_rom patch_data : list byte) (st st' : state) :
  0 <= target_write_offset st ->
  loop_body source_rom patch_data st = Ok st' ->
  forall j : nat,
    (Z.of_nat j < target_write_offset st
     \/ target_write_offset st' <= Z.of_nat j) ->
    target st' !! j = target st !! j.
Proof.
  intros Htwo H j Hj. pose proof H as Hadv. apply loop_body_advanced in Hadv.
  destruct Hadv as (a & o1 & Hrd & Hpos & Htw & _). rewrite Htw in Hj.
  revert H. unfold loop_body. rewrite Hrd. cbn [bind fst snd].
  unfold set_offset; cbn [offset].
  repeat match goal with |- context [if ?c then _ else _] => destruct c end.
  - intros H.
    apply (for_range_frame _ id (source_read_byte_one source_rom)) with (j := j)
      in H; [exact H|exact Htwo|unfold id; cbn; lia].
  - intros H.
    apply (for_range_frame _ id (target_read_byte_one patch_data)) with (j := j)
      in H; [exact H|exact Htwo|unfold id; cbn; lia].
  - destruct (read_vlv patch_data o1) as [copy_data|]; cbn [bind]; [|discriminate].
    intros H.
    apply (for_range_frame _ id (source_copy_byte_one source_rom)) with (j := j)
      in H; [exact H|exact Htwo|unfold id; cbn; lia].
  - destruct (read_vlv patch_data o1) as [copy_data|]; cbn [bind]; [|discriminate].
    destruct (for_range _ _ _) as [cs|] eqn:H; cbn [bind]; [|discriminate].
    intros [= <-].
    apply (for_range_frame _ snd target_copy_byte_one) with (j := j)
      in H; [exact H|exact Htwo|cbn; lia].
  - by intros [= <-].
Qed.

(** X8.  Whatever its kind, an action that completes changes no target
    byte before the write cursor it started at and none at or after the
    write cursor it ends at: every target byte is written by at most
    one action, in increasing order of position. *)
Theorem action_writes_only_its_range
    (source_rom patch_data : list byte) (st st' : state) :
  0 <= target_write_offset st ->
  loop_body source_rom patch_data st = Ok st' ->
  target_write_offset st < target_write_offset st' /\
  length (target st') = length (target st) /\
  forall j : nat,
    (Z.of_nat j < target_write_offset st
     \/ target_write_offset st' <= Z.of_nat j) ->
    target st' !! j = target st !! j.
Proof.
  intros Htwo H. pose proof H as Hadv. apply loop_body_advanced in Hadv.
  destruct Hadv as (a & o1 & _ & Hpos & Htw & Hlen & _).
  split; [lia|]. split; [unfold len in Hlen; lia|].
  by apply (loop_body_frame source_rom patch_data).
Qed.

Lemma action_writes_only_its_range_witness :
  1 < target_write_offset (mkState 11 0 6 [x41; x41; x41; x41; x41; x41] 2) /\
  length (target (mkState 11 0 6 [x41; x41; x41; x41; x41; x41] 2))
  = length [x41; x00; x00; x00; x00; x00] /\
  forall j : nat,
    (Z.of_nat j < 1
     \/ target_write_offset (mkState 11 0 6 [x41; x41; x41; x41; x41; x41] 2)
        <= Z.of_nat j) ->
    target (mkState 11 0 6 [x41; x41; x41; x41; x41; x41] 2) !! j
    = [x41; x00; x00; x00; x00; x00] !! j.
Proof.
  apply (action_writes_only_its_range [] patch_run_of_A
           (mkState 9 0 1 [x41; x00; x00; x00; x00; x00] 2)).
  - cbn. lia.
  - vm_compute. reflexivity.
Defined.

(** ** When an action fails *)

Lemma source_read_byte_ok (source_rom : list byte) (st : state) :
  0 <= target_write_offset st ->
  (- len source_rom <= source_read_offset st
   \/ len (target st) <= target_write_offset st) ->
  exists st', source_read_byte source_rom st = Ok st'.
Proof.
  intros Htwo Hsafe. unfold source_read_byte.
  destruct (Z.ltb_spec (target_write_offset st) (len (target st))) as [Hin|Hfull].
  - destruct (Z.ltb_spec (source_read_offset st) (len source_rom)) as [Hlt|Hge];
      cbn [andb].
    + assert (exists b, py_getitem source_rom (source_read_offset st) = Ok b)
        as [b ->].
      { destruct (Z.lt_ge_cases (source_read_offset st) 0).
        - rewrite py_getitem_wrap by lia.
          destruct (py_getitem_in_range source_rom
                      (source_read_offset st + len source_rom)) as (b & ? & _);
            [lia|eauto].
        - destruct (py_getitem_in_range source_rom (source_read_offset st))
            as (b & ? & _); [lia|eauto]. }
      cbn [bind]. rewrite py_setitem_in_range by lia. cbn [bind]. eauto.
    + rewrite py_setitem_in_range by lia. cbn [bind]. eauto.
  - rewrite andb_false_r. cbn [bind]. eauto.
Qed.

Lemma source_read_loop_ok (source_rom : list byte) (n : nat) :
  forall st : state,
    0 <= target_write_offset st ->
    (- len source_rom <= source_read_offset st
     \/ len (target st) <= target_write_offset st) ->
    exists st', for_range n (source_read_byte source_rom) st = Ok st'.
Proof.
  induction n as [|n IH]; intros st Htwo Hsafe; cbn [for_range]; [eauto|].
  destruct (source_read_byte_ok source_rom st Htwo Hsafe) as [st1 H1].
  rewrite H1. cbn [bind]. apply source_read_byte_advanced in H1.
  destruct H1 as (_ & Hsro & Htw & Hlen & _). apply IH; lia.
Qed.

Lemma source_read_loop_fails (source_rom : list byte) (n : nat) (st : state) :
  source_read_offset st < - len source_rom ->
  0 <= target_write_offset st < len (target st) ->
  for_range (S n) (source_read_byte source_rom) st = Raise IndexError.
Proof.
  intros Hlow Hin. cbn [for_range]. pose proof (len_nonneg source_rom).
  rewrite source_read_byte_negative by lia.
  by rewrite py_getitem_below by lia.
Qed.

(** The outcome of one action from a state with non-negative patch and
    target cursors. *)
Lemma loop_body_outcome (source_rom patch_data : list byte) (st : state) :
  0 <= offset st -> 0 <= target_write_offset st ->
  exists action_raw o1,
    read_vlv patch_data (offset st) = Ok (action_raw, o1) /\
    ((Z.land action_raw 3 = 0 /\
      source_read_offset st < - len source_rom /\
      target_write_offset st < len (target st) /\
      loop_body source_rom patch_data st = Raise IndexError)
     \/
     (~ (Z.land action_raw 3 = 0 /\
         source_read_offset st < - len source_rom /\
         target_write_offset st < len (target st)) /\
      exists st', loop_body source_rom patch_data st = Ok st')).
Proof.
  intros Hoff Htwo.
  destruct (read_vlv_ok patch_data (offset st) Hoff)
    as (a & o1 & Hrd & Ho1 & _ & _ & Ha).
  exists a, o1. split; [exact Hrd|].
  assert (0 <= Z.shiftr a 2) as Hlen by (by apply Z.shiftr_nonneg).
  unfold loop_body. rewrite Hrd. cbn [bind fst snd].
  unfold set_offset; cbn [offset].
  destruct (Z.eqb_spec (Z.land a 3) 0) as [K0|K0].
  - destruct (Z.lt_ge_cases (source_read_offset st) (- len source_rom)) as [Hlow|Hlow];
      [destruct (Z.lt_ge_cases (target_write_offset st) (len (target st)))
         as [Hin|Hfull]|].
    + left. repeat (split; [assumption|]).
      replace (Z.to_nat (Z.shiftr a 2 + 1)) with (S (Z.to_nat (Z.shiftr a 2)))
        by lia.
      apply source_read_loop_fails; cbn; lia.
    + right. split; [lia|]. apply source_read_loop_ok; cbn; lia.
    + right. split; [lia|]. apply source_read_loop_ok; cbn; lia.
  - right. split; [tauto|].
    destruct (Z.eqb_spec (Z.land a 3) 1) as [K1|K1];
      [|destruct (Z.eqb_spec (Z.land a 3) 2) as [K2|K2];
        [|destruct (Z.eqb_spec (Z.land a 3) 3) as [K3|K3]]].
    + rewrite target_read_loop by (cbn; lia). eauto.
    + destruct (read_vlv_ok patch_data o1) as (c & o2 & -> & _); [lia|].
      cbn [bind fst snd]. rewrite source_copy_loop by (cbn; lia). eauto.
    + destruct (read_vlv_ok patch_data o1) as (c & o2 & -> & _); [lia|].
      cbn [bind fst snd source_read_offset target_write_offset target
           iteration_count].
      destruct (target_copy_loop (Z.to_nat (Z.shiftr a 2 + 1))
                  (target_write_offset st + decode_relative c)
                  (mkState o2 (source_read_offset st) (target_write_offset st)
                           (target st) (iteration_count st)))
        as (st' & Hrun & _); [exact Htwo|].
      cbn [offset source_read_offset target_write_offset target iteration_count]
        in Hrun.
      rewrite Hrun. cbn [bind snd]. eauto.
    + eauto.
Qed.

(** X9.  From a state with non-negative patch and target cursors, an
    action fails exactly when it is a SourceRead, the source cursor is
    below [-len(source_rom)] and the write cursor is inside the target;
    the failure is an IndexError.  TargetRead, SourceCopy and
    TargetCopy never fail. *)
Theorem action_fails_iff (source_rom patch_data : list byte) (st : state) :
  0 <= offset st -> 0 <= target_write_offset st ->
  ((exists e, loop_body source_rom patch_data st = Raise e)
   <-> (exists action_raw o1,
          read_vlv patch_data (offset st) = Ok (action_raw, o1) /\
          Z.land action_raw 3 = 0 /\
          source_read_offset st < - len source_rom /\
          target_write_offset st < len (target st))) /\
  (forall e, loop_body source_rom patch_data st = Raise e -> e = IndexError).
Proof.
  intros Hoff Htwo. split; [|intros e; apply loop_body_raises].
  destruct (loop_body_outcome source_rom patch_data st Hoff Htwo)
    as (a & o1 & Hrd & [(K & Hlow & Hin & Hfail)|(Hnot & st' & Hok)]).
  - split; [|eauto]. intros _. exists a, o1. tauto.
  - split.
    + intros [e He]. congruence.
    + intros (a' & o1' & Hrd' & K & Hlow & Hin).
      rewrite Hrd in Hrd'. injection Hrd' as <- <-. tauto.
Qed.

Lemma action_fails_iff_witness :
  ((exists e, loop_body [] patch_source_read_after_copy
                        (mkState 9 (-1) 1 [x00; x00] 2) = Raise e)
   <-> (exists action_raw o1,
          read_vlv patch_source_read_after_copy 9 = Ok (action_raw, o1) /\
          Z.land action_raw 3 = 0 /\
          -1 < - len [] /\
          1 < len [x00; x00])) /\
  (forall e, loop_body [] patch_source_read_after_copy
                       (mkState 9 (-1) 1 [x00; x00] 2) = Raise e ->
             e = IndexError).
Proof.
  apply (action_fails_iff [] patch_source_read_after_copy
           (mkState 9 (-1) 1 [x00; x00] 2)); cbn; lia.
Defined.

(** ** The bytes the action stream does not reach *)

Section WhileInvariant.
Variables (source_rom patch_data : list byte) (max_iterations : Z).
Variable P : state -> Prop.
Hypothesis P_counted : forall st, P st -> P (counted st).
Hypothesis P_body :
  forall st st', P st -> loop_body source_rom patch_data st = Ok st' -> P st'.

Lemma while_loop_invariant (fuel : nat) :
  forall st st' : state,
    P st ->
    while_loop fuel source_rom patch_data max_iterations st = Some (Ok st') ->
    P st'.
Proof.
  induction fuel as [|fuel IH]; intros st st' HP; cbn [while_loop].
  - destruct (_ <? _); [discriminate|]. by intros [= <-].
  - destruct (_ <? _); [|by intros [= <-]].
    destruct (_ <? _); [discriminate|].
    destruct (loop_body _ _ _) as [st1|] eqn:Hb; [|discriminate].
    apply IH. apply (P_body (counted st)); [by apply P_counted|exact Hb].
Qed.
End WhileInvariant.

Lemma zero_tail_body (source_rom patch_data : list byte) (st st' : state) :
  zero_tail st -> loop_body source_rom patch_data st = Ok st' -> zero_tail st'.
Proof.
  intros [Htwo Hzero] H. pose proof H as Hadv. apply loop_body_advanced in Hadv.
  destruct Hadv as (a & o1 & _ & Hpos & Htw & Hlen & _).
  split; [lia|]. intros j Hj Hlt.
  rewrite (loop_body_frame _ _ _ _ Htwo H) by lia.
  apply Hzero; [lia|]. unfold len in Hlen. lia.
Qed.

(** X10.  After a call that succeeds, every byte of the result at or
    after the final write cursor is zero: what the action stream does
    not reach keeps the zero the target was allocated with. *)
Theorem unwritten_tail_is_zero (host : Host)
    (fuel : nat) (source_rom patch_data : list byte) (st : state) :
  run_patch host fuel source_rom patch_data = Some (Ok st) ->
  0 <= target_write_offset st /\
  forall j : nat,
    target_write_offset st <= Z.of_nat j -> (j < length (target st))%nat ->
    target st !! j = Some x00.
Proof.
  destruct (run_patch_cases host source_rom patch_data)
    as [[_ H]|[(_ & _ & H)|[(_ & _ & e0 & _ & H)|(_ & _ & h & Hh & H)]]];
    rewrite H; [done..|].
  destruct (read_header_inv host patch_data h Hh) as (_ & _ & Htgt & Htwo & _).
  apply (while_loop_invariant source_rom patch_data _ zero_tail).
  - by intros [off sro two tgt ic].
  - apply zero_tail_body.
  - split; [lia|]. intros j _ Hlt. rewrite Htgt in *.
    rewrite length_replicate in Hlt. by apply lookup_replicate_2.
Qed.

Lemma unwritten_tail_is_zero_witness :
  0 <= target_write_offset (mkState 7 0 0 [x00] 0) /\
  forall j : nat,
    target_write_offset (mkState 7 0 0 [x00] 0) <= Z.of_nat j ->
    (j < length (target (mkState 7 0 0 [x00] 0)))%nat ->
    target (mkState 7 0 0 [x00] 0) !! j = Some x00.
Proof.
  apply (unwritten_tail_is_zero example_host 0 [] patch_no_action). vm_compute. reflexivity.
Defined.

(** ** Whole calls on one-action patches *)

Lemma opcode_decode (k kind : Z) :
  0 <= k -> 0 <= kind < 4 ->
  Z.land (4 * k + kind) 3 = kind /\ Z.shiftr (4 * k + kind) 2 = k.
Proof.
  intros Hk Hkind. split.
  - change 3 with (Z.ones 2). rewrite Z.land_ones by lia. change (2 ^ 2) with 4.
    rewrite Z.add_comm, Z.mul_comm, Z_mod_plus_full. apply Z.mod_small. lia.
  - rewrite Z.shiftr_div_pow2 by lia. change (2 ^ 2) with 4.
    symmetry. apply Z.div_unique with kind; lia.
Qed.

Lemma len_vlv_encode_pos (n : Z) : 1 <= len (vlv_encode n).
Proof.
  unfold len, vlv_encode.
  pose proof (vlv_encode_fuel_nonempty (Z.to_nat (Z.log2 n)) n). lia.
Qed.

Lemma len_header_bytes (ss ts : Z) :
  len (header_bytes ss ts)
  = 4 + len (vlv_encode ss) + len (vlv_encode ts) + len (vlv_encode 0).
Proof. unfold header_bytes. rewrite !len_app. change (len magic) with 4. lia. Qed.

Lemma take_header_bytes (ss ts : Z) (rest : list byte) :
  take 4 (header_bytes ss ts ++ rest) = magic.
Proof.
  unfold header_bytes. rewrite <- !app_assoc.
  change 4%nat with (length magic). by rewrite take_app_length.
Qed.

Lemma read_header_with (host : Host) (ss ts ms : Z) (rest : list byte) :
  0 <= ss -> 0 <= ts -> 0 <= ms ->
  ts <= sys_maxsize host -> ts <= memory host ->
  read_header host (header_with ss ts ms ++ rest)
  = Ok (mkHeader ss ts ms
          (mkState (len (header_with ss ts ms) + ms) 0 0
                   (replicate (Z.to_nat ts) x00) 0)).
Proof.
  intros Hss Hts Hms Hmax Hmem.
  unfold read_header, header_with. rewrite <- !app_assoc.
  replace 4 with (len magic) by reflexivity.
  rewrite read_vlv_encode by exact Hss. cbn [bind fst snd].
  rewrite (app_assoc magic (vlv_encode ss)), <- len_app.
  rewrite read_vlv_encode by exact Hts. cbn [bind fst snd].
  rewrite (app_assoc (magic ++ vlv_encode ss) (vlv_encode ts)), <- len_app.
  rewrite read_vlv_encode by exact Hms. cbn [bind fst snd].
  rewrite bytearray_ok by assumption. cbn [bind].
  rewrite !len_app. do 3 f_equal. lia.
Qed.

Lemma read_header_bytes (host : Host) (ss ts : Z) (rest : list byte) :
  0 <= ss -> 0 <= ts -> ts <= sys_maxsize host -> ts <= memory host ->
  read_header host (header_bytes ss ts ++ rest)
  = Ok (mkHeader ss ts 0
          (mkState (len (header_bytes ss ts)) 0 0
                   (replicate (Z.to_nat ts) x00) 0)).
Proof.
  intros Hss Hts Hmax Hmem.
  change (header_bytes ss ts) with (header_with ss ts 0).
  rewrite read_header_with by (assumption || lia). by rewrite Z.add_0_r.
Qed.

Lemma single_action_run (fuel : nat) (source_rom patch_data : list byte)
    (max_iterations : Z) (st0 st1 : state) :
  offset st0 < len patch_data - 12 ->
  iteration_count st0 + 1 <= max_iterations ->
  loop_body source_rom patch_data (counted st0) = Ok st1 ->
  len patch_data - 12 <= offset st1 ->
  while_loop (S fuel) source_rom patch_data max_iterations st0 = Some (Ok st1).
Proof.
  intros Hin Hcap Hbody Hout. cbn [while_loop].
  destruct (Z.ltb_spec (offset st0) (len patch_data - 12)); [|lia].
  unfold counted at 1; cbn [iteration_count].
  destruct (Z.ltb_spec max_iterations (iteration_count st0 + 1)); [lia|].
  rewrite Hbody. destruct fuel; cbn [while_loop];
    by destruct (Z.ltb_spec (offset st1) (len patch_data - 12)); [lia|].
Qed.

(** Zero-filled reads from the start of a list: the list cut or padded
    to the length asked for. *)
Lemma bytes_from_start (data : list byte) (n : nat) :
  bytes_from data 0 n = take n (data ++ replicate n x00).
Proof.
  apply list_eq. intros k. destruct (Nat.lt_ge_cases k n) as [Hk|Hk].
  - rewrite bytes_from_lookup by exact Hk. rewrite lookup_take_lt by exact Hk.
    rewrite Z.add_0_l. destruct (Nat.lt_ge_cases k (length data)) as [Hin|Hout].
    + rewrite lookup_app_l by exact Hin.
      pose proof (byte_at_lookup data (Z.of_nat k)) as Hat.
      rewrite Nat2Z.id in Hat. symmetry. apply Hat. unfold len. lia.
    + rewrite lookup_app_r by exact Hout.
      rewrite byte_at_outside by (unfold len; lia).
      symmetry. apply lookup_replicate_2. lia.
  - rewrite !lookup_ge_None_2; [reflexivity| |].
    + rewrite length_take. lia.
    + by rewrite bytes_from_length.
Qed.

Lemma write_from_whole (vs : list byte) :
  write_from (replicate (length vs) x00) 0 vs = vs.
Proof.
  rewrite write_from_fits by (rewrite length_replicate; lia).
  rewrite take_0, drop_ge by (rewrite length_replicate; lia).
  by rewrite app_nil_r.
Qed.

Lemma literal_patch_body (source_rom data : list byte) :
  data <> [] ->
  loop_body source_rom (literal_patch data)
    (counted (mkState (len (header_bytes 0 (len data))) 0 0
                      (replicate (Z.to_nat (len data)) x00) 0))
  = Ok (mkState (len (literal_patch data) - 12) 0 (len data) data 1).
Proof.
  intros Hne.
  assert (1 <= len data) as Hn by (destruct data; [done|unfold len; cbn; lia]).
  destruct (opcode_decode (len data - 1) 1) as [Hkind Hshift]; [lia..|].
  assert (len (literal_patch data) - 12
          = len (header_bytes 0 (len data))
            + len (vlv_encode (4 * (len data - 1) + 1)) + len data) as Hend.
  { unfold literal_patch. rewrite !len_app. change (len trailer) with 12. lia. }
  rewrite Hend. unfold loop_body, counted.
  cbn [offset source_read_offset target_write_offset target iteration_count].
  unfold literal_patch at 1. rewrite read_vlv_encode by lia.
  cbn [bind fst snd]. rewrite Hkind, Hshift. cbn [Z.eqb Pos.eqb].
  pose proof (len_nonneg (header_bytes 0 (len data))).
  pose proof (len_nonneg (vlv_encode (4 * (len data - 1) + 1))).
  unfold set_offset. rewrite target_read_loop
    by (cbn [offset target_write_offset]; lia).
  cbn [offset source_read_offset target_write_offset target iteration_count].
  replace (Z.to_nat (len data - 1 + 1)) with (length data) by (unfold len; lia).
  replace (Z.to_nat (len data)) with (length data) by (unfold len; lia).
  change (Z.to_nat 0) with O.
  replace (len (header_bytes 0 (len data))
           + len (vlv_encode (4 * (len data - 1) + 1)))
    with (Z.of_nat (length (header_bytes 0 (len data)
                            ++ vlv_encode (4 * (len data - 1) + 1))))
    by (rewrite length_app; unfold len; lia).
  unfold literal_patch.
  rewrite (app_assoc (header_bytes 0 (len data))).
  rewrite bytes_from_slice
    by (rewrite !length_app; lia).
  rewrite drop_app_length, take_app_length, write_from_whole.
  unfold len. rewrite Z.add_0_l. reflexivity.
Qed.

(** X11.  Applying the patch that carries a non-empty byte sequence
    [data] in one TargetRead action gives back [data], whatever the
    source is, on a host that can hold a buffer of the length of
    [data]. *)
Theorem literal_patch_applies (host : Host) (fuel : nat) (source_rom data : list byte) :
  data <> [] -> (1 <= fuel)%nat ->
  len data <= sys_maxsize host -> len data <= memory host ->
  apply_bps_patch_fuel host fuel source_rom (literal_patch data) = Some (Ok data).
Proof.
  intros Hne Hfuel Hmax Hmem. destruct fuel as [|fuel]; [lia|].
  assert (1 <= len data) as Hn by (destruct data; [done|unfold len; cbn; lia]).
  pose proof (literal_patch_body source_rom data Hne) as Hbody.
  assert (len (literal_patch data)
          = len (header_bytes 0 (len data))
            + len (vlv_encode (4 * (len data - 1) + 1)) + len data + 12) as Hlen.
  { unfold literal_patch. rewrite !len_app. change (len trailer) with 12. lia. }
  pose proof (len_header_bytes 0 (len data)) as Hhdr.
  pose proof (len_vlv_encode_pos 0).
  pose proof (len_vlv_encode_pos (len data)).
  pose proof (len_vlv_encode_pos (4 * (len data - 1) + 1)).
  unfold apply_bps_patch_fuel, run_patch.
  destruct (Z.ltb_spec (len (literal_patch data)) 19); [lia|].
  unfold literal_patch at 1.
  rewrite bool_decide_eq_true_2 by apply take_header_bytes. cbn [negb].
  unfold literal_patch at 1. rewrite read_header_bytes by lia. cbn [initial].
  rewrite (single_action_run fuel source_rom (literal_patch data) _ _
             (mkState (len (literal_patch data) - 12) 0 (len data) data 1));
    [reflexivity | | | exact Hbody | ]; cbn [offset iteration_count]; lia.
Qed.

Lemma literal_patch_applies_witness :
  apply_bps_patch_fuel example_host 1 [x01; x02]%byte (literal_patch [x7a; x41; x00]%byte)
  = Some (Ok [x7a; x41; x00]%byte).
Proof.
  apply (literal_patch_applies example_host 1 [x01; x02]%byte [x7a; x41; x00]%byte);
    [discriminate | lia | vm_compute; discriminate | vm_compute; discriminate].
Defined.

Lemma source_read_patch_body (source_rom : list byte) (n : Z) :
  1 <= n ->
  loop_body source_rom (source_read_patch n)
    (counted (mkState (len (header_bytes n n)) 0 0
                      (replicate (Z.to_nat n) x00) 0))
  = Ok (mkState (len (source_read_patch n) - 12) n n
                (take (Z.to_nat n) (source_rom ++ replicate (Z.to_nat n) x00)) 1).
Proof.
  intros Hn.
  destruct (opcode_decode (n - 1) 0) as [Hkind Hshift]; [lia..|].
  rewrite Z.add_0_r in Hkind, Hshift.
  assert (len (source_read_patch n) - 12
          = len (header_bytes n n) + len (vlv_encode (4 * (n - 1)))) as Hend.
  { unfold source_read_patch. rewrite !len_app. change (len trailer) with 12. lia. }
  rewrite Hend. unfold loop_body, counted.
  cbn [offset source_read_offset target_write_offset target iteration_count].
  unfold source_read_patch. rewrite read_vlv_encode by lia.
  cbn [bind fst snd]. rewrite Hkind, Hshift. cbn [Z.eqb].
  unfold set_offset.
  rewrite source_read_loop, source_copy_loop
    by (cbn [source_read_offset target_write_offset]; lia).
  cbn [offset source_read_offset target_write_offset target iteration_count].
  replace (Z.to_nat (n - 1 + 1)) with (Z.to_nat n) by lia.
  change (Z.to_nat 0) with O.
  replace (replicate (Z.to_nat n) x00)
    with (replicate (length (bytes_from source_rom 0 (Z.to_nat n))) x00) at 1
    by (by rewrite bytes_from_length).
  rewrite write_from_whole, bytes_from_start.
  f_equal. f_equal; lia.
Qed.

(** X12.  On a host that can hold a buffer of [n] bytes, applying the
    patch made of one SourceRead action of length [n >= 1], with
    declared target size [n], gives the first [n] bytes of the source,
    padded with zeros when the source is shorter; with
    [n = len(source_rom)] it gives back the source. *)
Theorem source_read_patch_applies
    (host : Host) (fuel : nat) (source_rom : list byte) (n : Z) :
  1 <= n -> (1 <= fuel)%nat ->
  n <= sys_maxsize host -> n <= memory host ->
  apply_bps_patch_fuel host fuel source_rom (source_read_patch n)
  = Some (Ok (take (Z.to_nat n) (source_rom ++ replicate (Z.to_nat n) x00))) /\
  (n = len source_rom ->
   apply_bps_patch_fuel host fuel source_rom (source_read_patch n)
   = Some (Ok source_rom)).
Proof.
  intros Hn Hfuel Hmax Hmem. destruct fuel as [|fuel]; [lia|].
  assert (apply_bps_patch_fuel host (S fuel) source_rom (source_read_patch n)
          = Some (Ok (take (Z.to_nat n)
                           (source_rom ++ replicate (Z.to_nat n) x00)))) as Hgen.
  { pose proof (source_read_patch_body source_rom n Hn) as Hbody.
    assert (len (source_read_patch n)
            = len (header_bytes n n) + len (vlv_encode (4 * (n - 1))) + 12)
      as Hlen.
    { unfold source_read_patch. rewrite !len_app.
      change (len trailer) with 12. lia. }
    pose proof (len_header_bytes n n) as Hhdr.
    pose proof (len_vlv_encode_pos 0).
    pose proof (len_vlv_encode_pos n).
    pose proof (len_vlv_encode_pos (4 * (n - 1))).
    unfold apply_bps_patch_fuel, run_patch.
    destruct (Z.ltb_spec (len (source_read_patch n)) 19); [lia|].
    unfold source_read_patch at 1.
    rewrite bool_decide_eq_true_2 by apply take_header_bytes. cbn [negb].
    unfold source_read_patch at 1. rewrite read_header_bytes by lia.
    cbn [initial].
    rewrite (single_action_run fuel source_rom (source_read_patch n) _ _
               (mkState (len (source_read_patch n) - 12) n n
                  (take (Z.to_nat n) (source_rom ++ replicate (Z.to_nat n) x00))
                  1));
      [reflexivity | | | exact Hbody | ]; cbn [offset iteration_count]; lia. }
  split; [exact Hgen|]. intros ->. rewrite Hgen.
  unfold len. rewrite Nat2Z.id. by rewrite take_app_length.
Qed.

Lemma source_read_patch_applies_witness :
  apply_bps_patch_fuel example_host 1 [x41; x42]%byte (source_read_patch 3)
  = Some (Ok [x41; x42; x00]%byte) /\
  apply_bps_patch_fuel example_host 1 [x41; x42]%byte (source_read_patch 2)
  = Some (Ok [x41; x42]%byte).
Proof.
  split.
  - apply (source_read_patch_applies example_host 1 [x41; x42]%byte 3);
      solve [lia | vm_compute; discriminate].
  - apply (source_read_patch_applies example_host 1 [x41; x42]%byte 2);
      solve [lia | vm_compute; discriminate | reflexivity].
Defined.

(** ** The signed offset as a code *)

(** X13.  On non-negative magnitudes the signed-offset decoding is
    one-to-one, and it gives a negative offset exactly for the odd
    magnitudes: no two magnitudes stand for the same offset, and 0 is
    the only magnitude for offset 0. *)
Theorem decode_relative_one_to_one (v w : Z) :
  0 <= v -> 0 <= w ->
  (decode_relative v = decode_relative w -> v = w) /\
  (decode_relative v < 0 <-> Z.odd v = true) /\
  (decode_relative v = 0 <-> v = 0).
Proof.
  intros Hv Hw. rewrite !decode_relative_odd_even.
  rewrite !Z.shiftr_div_pow2 by lia. change (2 ^ 1) with 2.
  pose proof (Z.div_mod v 2 ltac:(lia)) as Dv.
  pose proof (Z.div_mod w 2 ltac:(lia)) as Dw.
  rewrite Zmod_odd in Dv, Dw.
  assert (0 <= v / 2) by (apply Z.div_pos; lia).
  assert (0 <= w / 2) by (apply Z.div_pos; lia).
  destruct (Z.odd v), (Z.odd w); repeat split; intros; try lia; try discriminate.
Qed.

Lemma decode_relative_one_to_one_witness :
  (decode_relative 5 = decode_relative 5 -> 5 = 5) /\
  (decode_relative 5 < 0 <-> Z.odd 5 = true) /\
  (decode_relative 5 = 0 <-> 5 = 0).
Proof. apply (decode_relative_one_to_one 5 5); lia. Defined.

(** ** Metadata *)

Lemma len_header_with (ss ts ms : Z) :
  len (header_with ss ts ms)
  = 4 + len (vlv_encode ss) + len (vlv_encode ts) + len (vlv_encode ms).
Proof. unfold header_with. rewrite !len_app. change (len magic) with 4. lia. Qed.

Lemma take_header_with (ss ts ms : Z) (rest : list byte) :
  take 4 (header_with ss ts ms ++ rest) = magic.
Proof.
  unfold header_with. rewrite <- !app_assoc.
  change 4%nat with (length magic). by rewrite take_app_length.
Qed.

(** X14.  The bytes the header declares as metadata are skipped, and
    the declared size is not checked against the patch: when a header
    with non-negative sizes is followed by at least 12 bytes and
    declares a metadata size that reaches the last 12 bytes or goes
    past them, the call returns [target_size] zero bytes whatever the
    bytes after the header are, on a host that can hold a buffer of
    that size. *)
Theorem metadata_is_skipped
    (host : Host) (fuel : nat) (source_rom rest : list byte) (ss ts ms : Z) :
  0 <= ss -> 0 <= ts -> 0 <= ms ->
  12 <= len rest -> len rest - 12 <= ms ->
  ts <= sys_maxsize host -> ts <= memory host ->
  apply_bps_patch_fuel host fuel source_rom (header_with ss ts ms ++ rest)
  = Some (Ok (replicate (Z.to_nat ts) x00)).
Proof.
  intros Hss Hts Hms Hrest Hcover Hmax Hmem.
  pose proof (len_header_with ss ts ms) as Hhdr.
  pose proof (len_vlv_encode_pos ss). pose proof (len_vlv_encode_pos ts).
  pose proof (len_vlv_encode_pos ms).
  assert (len (header_with ss ts ms ++ rest)
          = len (header_with ss ts ms) + len rest) as Hlen by apply len_app.
  unfold apply_bps_patch_fuel, run_patch.
  destruct (Z.ltb_spec (len (header_with ss ts ms ++ rest)) 19); [lia|].
  rewrite bool_decide_eq_true_2 by apply take_header_with. cbn [negb].
  rewrite read_header_with by assumption. cbn [initial].
  destruct fuel; cbn [while_loop offset];
    (destruct (Z.ltb_spec (len (header_with ss ts ms) + ms)
                          (len (header_with ss ts ms ++ rest) - 12)); [lia|]);
    reflexivity.
Qed.

Lemma metadata_is_skipped_witness :
  apply_bps_patch_fuel example_host 3 [x41]%byte
    (header_with 0 2 40 ++ [x81; x7a; x81; x7b]%byte ++ trailer)
  = Some (Ok (replicate (Z.to_nat 2) x00)).
Proof.
  apply (metadata_is_skipped example_host 3 [x41]%byte
           ([x81; x7a; x81; x7b]%byte ++ trailer) 0 2 40);
    solve [lia | vm_compute; discriminate].
Defined.

(** ** rom_patcher.py: cleaning the level name *)

Section LevelName.
Variable isalnum : N -> bool.

Lemma filter_all (f : N -> bool) (l : list N) :
  Forall (fun c => f c = true) l -> List.filter f l = l.
Proof.
  induction 1 as [|c l Hc _ IH]; cbn [List.filter]; [reflexivity|].
  by rewrite Hc, IH.
Qed.

Lemma filter_Forall (f : N -> bool) (l : list N) :
  Forall (fun c => f c = true) (List.filter f l).
Proof.
  induction l as [|c l IH]; cbn [List.filter]; [constructor|].
  destruct (f c) eqn:Hc; [by constructor|exact IH].
Qed.

Lemma clean_allowed (name : list N) :
  Forall (fun c => allowed_char isalnum c = true) (clean isalnum name).
Proof. unfold clean. apply Forall_take, filter_Forall. Qed.

Lemma clean_length (name : list N) : (length (clean isalnum name) <= 100)%nat.
Proof. unfold clean. rewrite length_take. lia. Qed.

Lemma clean_of_allowed (name : list N) :
  Forall (fun c => allowed_char isalnum c = true) name ->
  (length name <= 100)%nat ->
  clean isalnum name = name.
Proof.
  intros Hall Hlen. unfold clean. rewrite filter_all by exact Hall.
  by apply take_ge.
Qed.

Lemma level_allowed :
  Forall (fun c => isalnum c = true) str_level ->
  Forall (fun c => allowed_char isalnum c = true) str_level.
Proof.
  intros H. eapply Forall_impl; [exact H|].
  intros c Hc. unfold allowed_char. by rewrite Hc.
Qed.

Lemma sanitize_level_name_spec (name : list N) :
  Forall (fun c => isalnum c = true) str_level ->
  (1 <= length (sanitize_level_name isalnum name) <= 100)%nat /\
  Forall (fun c => allowed_char isalnum c = true)
         (sanitize_level_name isalnum name).
Proof.
  intros Hlevel. unfold sanitize_level_name.
  destruct (bool_decide_reflect (clean isalnum name = [])) as [Hnil|Hne].
  - split; [cbn; lia | by apply level_allowed].
  - split; [|apply clean_allowed].
    pose proof (clean_length name). destruct (clean isalnum name); [done|].
    cbn [length] in *. lia.
Qed.

End LevelName.

(** X15.  If [isalnum] holds of the letters of "level", the cleaned
    level name is never empty, has at most 100 characters, and each of
    them is alphanumeric or one of space, '-', '_' and '.'. *)
Theorem level_name_is_clean (isalnum : N -> bool) (level_name : list N) :
  Forall (fun c => isalnum c = true) str_level ->
  (1 <= length (sanitize_level_name isalnum level_name) <= 100)%nat /\
  Forall (fun c => isalnum c = true \/ In c [32; 45; 95; 46]%N)
         (sanitize_level_name isalnum level_name).
Proof.
  intros Hlevel.
  destruct (sanitize_level_name_spec isalnum level_name Hlevel) as [Hlen Hall].
  split; [exact Hlen|]. eapply Forall_impl; [exact Hall|]. intros c.
  unfold allowed_char. rewrite !orb_true_iff, !N.eqb_eq. cbn [In].
  intros [[[[H|H]|H]|H]|H]; subst; tauto.
Qed.

Lemma level_name_is_clean_witness :
  (1 <= length (sanitize_level_name ascii_isalnum [46; 46; 47; 97; 58]%N)
   <= 100)%nat /\
  Forall (fun c => ascii_isalnum c = true \/ In c [32; 45; 95; 46]%N)
         (sanitize_level_name ascii_isalnum [46; 46; 47; 97; 58]%N).
Proof.
  apply (level_name_is_clean ascii_isalnum [46; 46; 47; 97; 58]%N).
  repeat constructor.
Defined.

(** X16.  On a level name that went through the first cleaning, the
    second cleaning changes nothing: the output file name is the
    cleaned level name followed by ".smc", and the substitute name
    "patched_rom" is never used. *)
Theorem output_filename_of_clean_name (isalnum : N -> bool) (level_name : list N) :
  Forall (fun c => isalnum c = true) str_level ->
  output_filename isalnum (sanitize_level_name isalnum level_name)
  = sanitize_level_name isalnum level_name ++ str_smc.
Proof.
  intros Hlevel.
  destruct (sanitize_level_name_spec isalnum level_name Hlevel) as [Hlen Hall].
  unfold output_filename. rewrite clean_of_allowed by (assumption || lia).
  destruct (bool_decide_reflect (sanitize_level_name isalnum level_name = []))
    as [Hnil|Hne]; [|reflexivity].
  rewrite Hnil in Hlen. cbn in Hlen. lia.
Qed.

Lemma output_filename_of_clean_name_witness :
  output_filename ascii_isalnum (sanitize_level_name ascii_isalnum [47; 47]%N)
  = sanitize_level_name ascii_isalnum [47; 47]%N ++ str_smc.
Proof.
  apply (output_filename_of_clean_name ascii_isalnum [47; 47]%N).
  repeat constructor.
Defined.

(** X17.  Whatever the level name, when '/' and '\' are not
    alphanumeric the output file name holds neither of them, and it has
    between 5 and 104 characters. *)
Theorem output_filename_has_no_separator
    (isalnum : N -> bool) (level_name : list N) :
  Forall (fun c => isalnum c = true) str_level ->
  isalnum 47%N = false -> isalnum 92%N = false ->
  let name := output_filename isalnum (sanitize_level_name isalnum level_name) in
  ~ In 47%N name /\ ~ In 92%N name /\ (5 <= length name <= 104)%nat.
Proof.
  intros Hlevel Hslash Hback.
  destruct (sanitize_level_name_spec isalnum level_name Hlevel) as [Hlen Hall].
  assert (output_filename isalnum (sanitize_level_name isalnum level_name)
          = sanitize_level_name isalnum level_name ++ str_smc) as ->.
  { unfold output_filename. rewrite clean_of_allowed by (assumption || lia).
    destruct (bool_decide_reflect (sanitize_level_name isalnum level_name = []))
      as [Hnil|Hne]; [|reflexivity].
    rewrite Hnil in Hlen. cbn in Hlen. lia. }
  rewrite Forall_forall in Hall.
  assert (forall c, allowed_char isalnum c = false ->
                    ~ In c str_smc ->
                    ~ In c (sanitize_level_name isalnum level_name ++ str_smc))
    as Hnot.
  { intros c Hc Hsmc Hin. apply in_app_or in Hin. destruct Hin as [Hin|Hin].
    - apply list_elem_of_In in Hin. apply Hall in Hin. congruence.
    - contradiction. }
  split; [|split].
  - apply Hnot; [unfold allowed_char; by rewrite Hslash|].
    cbn. intros [|[|[|[|[]]]]]; discriminate.
  - apply Hnot; [unfold allowed_char; by rewrite Hback|].
    cbn. intros [|[|[|[|[]]]]]; discriminate.
  - rewrite length_app. cbn [length str_smc]. lia.
Qed.

Lemma output_filename_has_no_separator_witness :
  let name := output_filename ascii_isalnum
                (sanitize_level_name ascii_isalnum [46; 46; 47; 101; 116; 99]%N) in
  ~ In 47%N name /\ ~ In 92%N name /\ (5 <= length name <= 104)%nat.
Proof.
  apply (output_filename_has_no_separator ascii_isalnum
           [46; 46; 47; 101; 116; 99]%N);
    [repeat constructor | reflexivity | reflexivity].
Defined.
